(** * Verification of the image watermarking hook [useWatermark]

    The development embeds the hook of [src/unnamed/part_000] as Rocq
    functions over an explicit model of the document, and states the
    properties of its specification as theorems.

    Conventions.
    - Element dimensions ([naturalWidth], [width], ...) are unsigned
      integers of the DOM and are modelled in [N].
    - The layout computation of lines 108-129 is embedded on IEEE 754
      binary64 numbers, with the roundings of the source, in module
      [F64]; what the engine returns for given sizes is stated there.
    - Bounding boxes, the sizes of the overlay tiles and the layout
      recorded in the effect log are exact rationals [Q], with the
      results of [Math.round] and [Math.floor] in [Z]: the same
      computation without rounding, used for the bounds that the clamps
      of the code give whatever the rounding.
    - Strings are [string]; [a || b] on numbers is [orElse]. *)

From Stdlib Require Import ZArith NArith QArith Qround Qminmax Lia Lqa String Ascii List Bool.
From Stdlib Require Import DecimalString DecimalNat.
From Stdlib Require SpecFloat.
From stdpp Require Import base option gmap.

Open Scope string_scope.

(** ** The element record *)

Record Dataset := {
  dsRole : option string;        (* data-role *)
  dsWm : option string;          (* data-wm *)
  noWm : option string;          (* dataset.noWm *)
  wmProcessed : option string;   (* dataset.wmProcessed *)
  wmUrl : option string;         (* dataset.wmUrl *)
  wmOverlay : option string      (* data-wm-overlay *)
}.

Record Element := {
  isImage : bool;                (* instanceof HTMLImageElement *)
  ancestors : list nat;          (* parentElement, its parent, ...: nearest first *)
  classList : list string;
  roleAttr : option string;      (* role *)
  dataset : Dataset;
  position : string;             (* getComputedStyle(el).position *)
  width : N;
  height : N;
  rectWidth : Q;                 (* getBoundingClientRect().width *)
  rectHeight : Q;
  naturalWidth : N;
  naturalHeight : N;
  complete : bool;
  src : string;
  currentSrc : string;
  overlayTiles : list (string * Z)  (* text children of an overlay: text, font px *)
}.

(** ** JavaScript helpers *)

(** [a || b] on numbers: [a] when it is truthy (non-zero). *)
Definition orElse (a b : N) : N := if (a =? 0)%N then b else a.

Definition contains (cl : list string) (c : string) : bool :=
  existsb (String.eqb c) cl.

Definition isStr (o : option string) (s : string) : bool :=
  match o with Some v => String.eqb v s | None => false end.

(** ** Eligibility filter: [exclude], [alreadyProcessed], [markProcessed] *)

Definition exclude (img : Element) : bool :=
  if isStr (noWm (dataset img)) "true" then true
  else if contains (classList img) "no-wm" then true
  else
    let w := orElse (naturalWidth img) (orElse (width img) 0) in
    let h := orElse (naturalHeight img) (orElse (height img) 0) in
    if ((w <? 120) || (h <? 120))%N then true else false.

Definition alreadyProcessed (img : Element) : bool :=
  isStr (wmProcessed (dataset img)) "1".

(** The two opt-out markers. *)
Definition optedOut (img : Element) : bool :=
  isStr (noWm (dataset img)) "true" || contains (classList img) "no-wm".

(** Field updates. *)
Definition withDataset (ds : Dataset) (e : Element) : Element :=
  {| isImage := isImage e; ancestors := ancestors e;
     classList := classList e; roleAttr := roleAttr e; dataset := ds;
     position := position e; width := width e; height := height e;
     rectWidth := rectWidth e; rectHeight := rectHeight e;
     naturalWidth := naturalWidth e; naturalHeight := naturalHeight e;
     complete := complete e; src := src e; currentSrc := currentSrc e;
     overlayTiles := overlayTiles e |}.

Definition withProcessed (v : option string) (e : Element) : Element :=
  withDataset {| dsRole := dsRole (dataset e); dsWm := dsWm (dataset e);
                 noWm := noWm (dataset e); wmProcessed := v;
                 wmUrl := wmUrl (dataset e);
                 wmOverlay := wmOverlay (dataset e) |} e.

Definition withWmUrl (v : option string) (e : Element) : Element :=
  withDataset {| dsRole := dsRole (dataset e); dsWm := dsWm (dataset e);
                 noWm := noWm (dataset e); wmProcessed := wmProcessed (dataset e);
                 wmUrl := v; wmOverlay := wmOverlay (dataset e) |} e.

Definition withPosition (p : string) (e : Element) : Element :=
  {| isImage := isImage e; ancestors := ancestors e;
     classList := classList e; roleAttr := roleAttr e; dataset := dataset e;
     position := p; width := width e; height := height e;
     rectWidth := rectWidth e; rectHeight := rectHeight e;
     naturalWidth := naturalWidth e; naturalHeight := naturalHeight e;
     complete := complete e; src := src e; currentSrc := currentSrc e;
     overlayTiles := overlayTiles e |}.

Definition withAncestors (a : list nat) (e : Element) : Element :=
  {| isImage := isImage e; ancestors := a;
     classList := classList e; roleAttr := roleAttr e; dataset := dataset e;
     position := position e; width := width e; height := height e;
     rectWidth := rectWidth e; rectHeight := rectHeight e;
     naturalWidth := naturalWidth e; naturalHeight := naturalHeight e;
     complete := complete e; src := src e; currentSrc := currentSrc e;
     overlayTiles := overlayTiles e |}.

(** The image-request fields: [src], [currentSrc], [complete] and the
    natural size. *)
Definition withRequest (s cur : string) (c : bool) (nw nh : N) (e : Element) : Element :=
  {| isImage := isImage e; ancestors := ancestors e;
     classList := classList e; roleAttr := roleAttr e; dataset := dataset e;
     position := position e; width := width e; height := height e;
     rectWidth := rectWidth e; rectHeight := rectHeight e;
     naturalWidth := nw; naturalHeight := nh;
     complete := c; src := s; currentSrc := cur;
     overlayTiles := overlayTiles e |}.

(** [markProcessed]: [img.dataset.wmProcessed = "1"]. *)
Definition markProcessedEl (img : Element) : Element := withProcessed (Some "1") img.

(** ** Numbers of the layout computation *)

Open Scope Q_scope.

Definition ofN (n : N) : Q := inject_Z (Z.of_N n).
Definition ofZ (z : Z) : Q := inject_Z z.

(** [Math.round]: nearest integer, ties towards +infinity. *)
Definition jsRound (x : Q) : Z := Qfloor (x + (1 # 2)).
(** [Math.floor]. *)
Definition jsFloor (x : Q) : Z := Qfloor x.
(** [a > b] on numbers. *)
Definition gtb (a b : Q) : bool := negb (Qle_bool a b).
(** [a || b] where [a] is a double. *)
Definition orElseQ (a b : Q) : Q := if Qeq_bool a 0 then b else a.

(** [String.prototype.toUpperCase] on ASCII text. *)
Definition upperChar (c : ascii) : ascii :=
  let n := nat_of_ascii c in
  if ((97 <=? n) && (n <=? 122))%nat then ascii_of_nat (n - 32) else c.

Definition toUpperCase (s : string) : string :=
  string_of_list_ascii (List.map upperChar (list_ascii_of_string s)).

Definition TEXT : string := "ashishproperties.in".

(** ** Canvas text metrics

    [ctx.measureText(ch).width] depends on the font installed in the
    context; the font stack and weight are fixed by the hook, so the
    metric is a function of the pixel size and the character. *)
Definition Metrics := Z -> ascii -> Q.

(** The body of the [for] loop of [measureTextWithSpacing]: [cs] are the
    characters from index [i] on, [w] the accumulator. The test
    [i !== upper.length - 1] holds exactly when characters remain. *)
Fixpoint measureLoop (glyph : ascii -> Q) (letterSpacing : Q)
    (cs : list ascii) (w : Q) : Q :=
  match cs with
  | nil => w
  | c :: rest =>
      let w1 := w + glyph c in
      let w2 := match rest with nil => w1 | _ => w1 + letterSpacing end in
      measureLoop glyph letterSpacing rest w2
  end.

(** [measureTextWithSpacing(ctx, text, letterSpacing)], with [ctx.font]
    set to [fontPx]. *)
Definition measureTextWithSpacing (m : Metrics) (fontPx : Z) (text : string)
    (letterSpacing : Z) : Q :=
  measureLoop (m fontPx) (ofZ letterSpacing)
    (list_ascii_of_string (toUpperCase text)) 0.

(** ** Layout engine: lines 108-129 of [bakeWatermark], without rounding

    The computation on exact rationals. Its font size can differ from
    the one of the source where a product or quotient is rounded; the
    computation with the source's roundings is [F64.layoutText]. *)

Record Layout := {
  fontPx : Z;
  letterSpacing : Z;     (* Math.round(fontPx * 0.06), as used when drawing *)
  textW : Q;
  margin : Z;
  xStart : Q;
  yBase : Z
}.

Definition baseFontPx (dispW dispH : Q) : Z :=
  let base := Qmin dispW dispH in
  Z.max 24 (jsRound (base * 0.16)).

Definition layoutText (m : Metrics) (text : string) (w h : N) (dispW dispH : Q) : Layout :=
  let fontPx0 := baseFontPx dispW dispH in
  let letterSpacingPx := jsRound (ofZ fontPx0 * 0.06) in
  let text := toUpperCase text in
  let textW0 := measureTextWithSpacing m fontPx0 text letterSpacingPx in
  let maxW := ofN w * 0.7 in
  let '(fontPx1, textW1) :=
    if gtb textW0 maxW then
      let s := maxW / textW0 in
      let f := Z.max 18 (jsFloor (ofZ fontPx0 * s)) in
      (f, measureTextWithSpacing m f text (jsRound (ofZ f * 0.06)))
    else (fontPx0, textW0) in
  let margin := Z.max 12 (jsRound (ofN (N.min w h) * 0.035)) in
  let xStart := Qmax 0 (ofN w - textW1 - ofZ margin) in
  let y := Z.max (fontPx1 + margin) (Z.of_N h - margin) in
  {| fontPx := fontPx1; letterSpacing := jsRound (ofZ fontPx1 * 0.06);
     textW := textW1; margin := margin; xStart := xStart; yBase := y |}.

Definition layout (m : Metrics) : N -> N -> Q -> Q -> Layout := layoutText m TEXT.

(** Lines 105-107: the displayed size used for font sizing. *)
Definition displayedSize (img : Element) (w h : N) : Q * Q :=
  (Qmax 1 (orElseQ (rectWidth img) (ofN (orElse (width img) w))),
   Qmax 1 (orElseQ (rectHeight img) (ofN (orElse (height img) h)))).

Close Scope Q_scope.

(** ** The measured width in the words of the specification *)




(** ** The layout computation on JavaScript numbers

    Lines 108-129 compute on IEEE 754 binary64 numbers, rounding to
    nearest with ties to even: [w * 0.7] is rounded, [0.7] itself is the
    number nearest to 7/10, and so are the quotient [maxW / textW] and
    the product [fontPx * s]. [F64] is the computation with exactly
    these roundings, built on the binary64 operations of
    [Stdlib.Floats.SpecFloat]. The branch taken at line 120 and the font
    size after the shrink pass depend on them. *)
Module F64.

Definition number := SpecFloat.spec_float.
Definition prec : Z := 53.
Definition emax : Z := 1024.

(** An integer as a number; exact below [2^53]. *)
Definition ofInt (z : Z) : number := SpecFloat.binary_normalize prec emax z 0 false.
Definition ofN (n : N) : number := ofInt (Z.of_N n).

Definition mul : number -> number -> number := SpecFloat.SFmul prec emax.
Definition div : number -> number -> number := SpecFloat.SFdiv prec emax.
Definition add : number -> number -> number := SpecFloat.SFadd prec emax.
Definition sub : number -> number -> number := SpecFloat.SFsub prec emax.

(** A decimal literal of the source text with value [n / d]: the number
    nearest to it. *)
Definition literal (n d : Z) : number := div (ofInt n) (ofInt d).

(** [a > b]. *)
Definition gt (a b : number) : bool := SpecFloat.SFltb b a.

(** [Math.max(a, b)] and [Math.min(a, b)]. *)
Definition max (a b : number) : number :=
  match SpecFloat.SFcompare a b with
  | Some Lt => b
  | Some Gt => a
  | Some Eq =>
      match a, b with
      | SpecFloat.S754_zero sa, SpecFloat.S754_zero sb => SpecFloat.S754_zero (sa && sb)
      | _, _ => a
      end
  | None => SpecFloat.S754_nan
  end.

Definition min (a b : number) : number :=
  match SpecFloat.SFcompare a b with
  | Some Lt => a
  | Some Gt => b
  | Some Eq =>
      match a, b with
      | SpecFloat.S754_zero sa, SpecFloat.S754_zero sb => SpecFloat.S754_zero (sa || sb)
      | _, _ => a
      end
  | None => SpecFloat.S754_nan
  end.

(** The integer [z] obtained by rounding a number of sign [s]. *)
Definition integral (s : bool) (z : Z) : number :=
  if (z =? 0)%Z then SpecFloat.S754_zero s else ofInt z.

(** [Math.floor(x)]. *)
Definition floor (x : number) : number :=
  match x with
  | SpecFloat.S754_finite s m e =>
      if (0 <=? e)%Z then x
      else integral s (SpecFloat.cond_Zopp s (Zpos m) / 2 ^ (- e))%Z
  | _ => x
  end.

(** [Math.round(x)]: the nearest integer, ties towards +infinity. *)
Definition round (x : number) : number :=
  match x with
  | SpecFloat.S754_finite s m e =>
      if (0 <=? e)%Z then x
      else integral s ((2 * SpecFloat.cond_Zopp s (Zpos m) + 2 ^ (- e)) / 2 ^ (1 - e))%Z
  | _ => x
  end.

(** [ctx.measureText(ch).width] at a font size. *)
Definition Metrics := number -> ascii -> number.

Fixpoint measureLoop (glyph : ascii -> number) (letterSpacing : number)
    (cs : list ascii) (w : number) : number :=
  match cs with
  | nil => w
  | c :: rest =>
      let w1 := add w (glyph c) in
      let w2 := match rest with nil => w1 | _ => add w1 letterSpacing end in
      measureLoop glyph letterSpacing rest w2
  end.

Definition measureTextWithSpacing (m : Metrics) (fontPx : number) (text : string)
    (letterSpacing : number) : number :=
  measureLoop (m fontPx) letterSpacing (list_ascii_of_string (toUpperCase text)) (ofInt 0).

Record Layout := {
  fontPx : number;
  letterSpacing : number;   (* Math.round(fontPx * 0.06), as used when drawing *)
  textW : number;
  margin : number;
  xStart : number;
  yBase : number
}.

Definition baseFontPx (dispW dispH : number) : number :=
  let base := min dispW dispH in
  max (ofInt 24) (round (mul base (literal 16 100))).

Definition layoutText (m : Metrics) (text : string) (w h : N) (dispW dispH : number) : Layout :=
  let fontPx0 := baseFontPx dispW dispH in
  let letterSpacingPx := round (mul fontPx0 (literal 6 100)) in
  let text := toUpperCase text in
  let textW0 := measureTextWithSpacing m fontPx0 text letterSpacingPx in
  let maxW := mul (ofN w) (literal 7 10) in
  let '(fontPx1, textW1) :=
    if gt textW0 maxW then
      let s := div maxW textW0 in
      let f := max (ofInt 18) (floor (mul fontPx0 s)) in
      (f, measureTextWithSpacing m f text (round (mul f (literal 6 100))))
    else (fontPx0, textW0) in
  let margin := max (ofInt 12) (round (mul (ofN (N.min w h)) (literal 35 1000))) in
  let xStart := max (ofInt 0) (sub (sub (ofN w) textW1) margin) in
  let y := max (add fontPx1 margin) (sub (ofN h) margin) in
  {| fontPx := fontPx1; letterSpacing := round (mul fontPx1 (literal 6 100));
     textW := textW1; margin := margin; xStart := xStart; yBase := y |}.

Definition layout (m : Metrics) : N -> N -> number -> number -> Layout := layoutText m TEXT.

(** The layout rules in the words of the specification, on the same
    numbers. *)
Definition specFontSize (dispW dispH : number) : number :=
  max (ofInt 24) (round (mul (literal 16 100) (min dispW dispH))).

Definition specLetterSpacing (fontSize : number) : number :=
  round (mul (literal 6 100) fontSize).

Definition specMargin (w h : N) : number :=
  max (ofInt 12) (round (mul (literal 35 1000) (ofN (N.min w h)))).

Definition specAnchorX (w : N) (textWidth margin : number) : number :=
  max (ofInt 0) (sub (sub (ofN w) textWidth) margin).

Definition specBaselineY (h : N) (fontSize margin : number) : number :=
  max (add fontSize margin) (sub (ofN h) margin).

Definition specMaxWidth (w : N) : number := mul (literal 7 10) (ofN w).


(** Glyphs 5/8 em wide, the full stop 1/2 em. *)
Definition sampleMetrics : Metrics :=
  fun f c => mul f (if Ascii.eqb c "."%char then literal 1 2 else literal 5 8).

End F64.

(** ** The document

    Elements live in a store indexed by identity. Each element carries
    the chain of its ancestor elements, nearest first, so [parentElement]
    is the head of the chain and [closest] walks it. *)

Abbreviation Doc := (gmap nat Element).

Definition inb (x : nat) (l : list nat) : bool := existsb (Nat.eqb x) l.

Definition parentElement (e : Element) : option nat := head (ancestors e).

(** [el.matches("[data-role=property-hero], .property-hero, .lightbox,
    [role=dialog], [role='dialog']")]. *)
Definition matchesHost (e : Element) : bool :=
  isStr (dsRole (dataset e)) "property-hero"
  || contains (classList e) "property-hero"
  || contains (classList e) "lightbox"
  || isStr (roleAttr e) "dialog".

Definition matchesAt (d : Doc) (p : Element -> bool) (k : nat) : bool :=
  match d !! k with Some e => p e | None => false end.

(** [img.closest(sel)]: the element itself or its nearest ancestor matching. *)
Definition closest (d : Doc) (i : nat) (img : Element) : option nat :=
  List.find (matchesAt d matchesHost) (i :: ancestors img).

(** [img.closest(...) || img.parentElement]. *)
Definition resolveHost (d : Doc) (i : nat) (img : Element) : option nat :=
  match closest d i img with
  | Some h => Some h
  | None => parentElement img
  end.

Definition isOverlay (e : Element) : bool := isStr (wmOverlay (dataset e)) "1".

(** The elements selected by [host.querySelectorAll("[data-wm-overlay='1']")]:
    marked descendants of [h]. *)
Definition overlaysUnder (d : Doc) (h : nat) : Doc :=
  filter (fun kv : nat * Element => isOverlay kv.2 && inb h (ancestors kv.2) = true) d.

(** The scope selectors of the hook. *)
Definition matchesScopeAncestor (e : Element) : bool :=
  isStr (dsRole (dataset e)) "property-hero"
  || contains (classList e) "property-hero"
  || contains (classList e) "property-gallery"
  || contains (classList e) "lightbox"
  || isStr (roleAttr e) "dialog".

Definition inScope (d : Doc) (img : Element) : bool :=
  isImage img
  && (existsb (matchesAt d matchesScopeAncestor) (ancestors img)
      || isStr (dsWm (dataset img)) "1").

(** ** Overlay fallback: [setOverlay] *)

Definition tileGrid (dispW dispH : Q) : list (string * Z) :=
  let tileCountX := Z.max 3 (jsRound (dispW / 160)) in
  let tileCountY := Z.max 2 (jsRound (dispH / 120)) in
  let fontPx := Z.max 12 (jsRound (Qmin dispW dispH * 0.06)) in
  concat (repeat (repeat (TEXT, fontPx) (Z.to_nat tileCountX)) (Z.to_nat tileCountY)).

Definition overlayElement (h : nat) (host : Element) (tiles : list (string * Z)) : Element :=
  {| isImage := false; ancestors := h :: ancestors host;
     classList := nil; roleAttr := None;
     dataset := {| dsRole := None; dsWm := None; noWm := None;
                   wmProcessed := None; wmUrl := None; wmOverlay := Some "1" |};
     position := "absolute"; width := 0; height := 0;
     rectWidth := 0; rectHeight := 0;
     naturalWidth := 0; naturalHeight := 0;
     complete := false; src := EmptyString; currentSrc := EmptyString;
     overlayTiles := tiles |}.

(** Lines 191-192: a statically positioned host becomes relative. *)
Definition positioned (host : Element) : Element :=
  if String.eqb (position host) "static" then withPosition "relative" host else host.

(** The document part of [setOverlay]; the result also names the node
    appended, if any. A host identity that is not in the store cannot
    come from a real tree and leaves the document unchanged. *)
Definition setOverlayDoc (d : Doc) (i : nat) : Doc * option (nat * nat) :=
  match d !! i with
  | None => (d, None)
  | Some img =>
    match resolveHost d i img with
    | None => (d, None)
    | Some h =>
      match d !! h with
      | None => (d, None)
      | Some host =>
        if bool_decide (overlaysUnder d h = ∅) then
          let dispW := Qmax 1 (orElseQ (rectWidth img) (ofN (width img))) in
          let dispH := Qmax 1 (orElseQ (rectHeight img) (ofN (height img))) in
          let overlay := overlayElement h host (tileGrid dispW dispH) in
          let d1 := <[h := positioned host]> d in
          let o := fresh (dom d1) in
          (<[o := overlay]> d1, Some (h, o))
        else (d, None)
      end
    end
  end.

(** ** Engine state *)

Inductive MutationRecord :=
| ChildList (addedNodes : list nat)
| AttrSrc (target : nat).

Inductive BakeError :=
| ImgError | NoSize | CorsBlocked | CtxError | ToDataURLError | Tainted.

(** A suspended [process(img)] call: the [await] it is parked on. *)
Inductive Call :=
| AwaitLoaded (img : nat)                        (* ensureLoaded: listeners registered *)
| AwaitProbe (img : nat) (w h : N) (url : string) (* loadPromise of the anonymous copy *)
| AwaitExport (img : nat).                       (* canvas.toBlob callback *)

(** Externally visible effects, newest first. *)
Inductive Effect :=
| Drawn (img : nat) (url : string) (l : Layout)  (* text rendered on the canvas of the copy *)
| Installed (img : nat) (url : string)           (* img.src = url *)
| Revoked (url : string)                         (* URL.revokeObjectURL(url) *)
| OverlayCall (img : nat)                        (* setOverlay(img) *)
| Marked (img : nat).                            (* markProcessed(img) *)

Record World := {
  doc : Doc;
  body : nat;                      (* document.body *)
  ioTargets : gset nat;            (* targets of the IntersectionObserver *)
  moConnected : bool;              (* the MutationObserver is observing *)
  moQueue : list MutationRecord;   (* records not yet delivered, oldest first *)
  inflight : list (nat * Call);    (* suspended process calls *)
  nextCall : nat;
  nextBlob : nat;                  (* object URLs issued so far *)
  revoked : list string;
  log : list Effect
}.

(** What the browser decides. *)
Record Env := {
  metrics : Metrics;               (* ctx.measureText *)
  context2d : bool;                (* canvas.getContext("2d") is not null *)
  tainted : string -> bool         (* toBlob throws for a canvas painted from this URL *)
}.

Definition setDoc (d : Doc) (w : World) : World :=
  {| doc := d; body := body w; ioTargets := ioTargets w;
     moConnected := moConnected w; moQueue := moQueue w;
     inflight := inflight w; nextCall := nextCall w; nextBlob := nextBlob w;
     revoked := revoked w; log := log w |}.

Definition setIo (s : gset nat) (w : World) : World :=
  {| doc := doc w; body := body w; ioTargets := s;
     moConnected := moConnected w; moQueue := moQueue w;
     inflight := inflight w; nextCall := nextCall w; nextBlob := nextBlob w;
     revoked := revoked w; log := log w |}.

Definition setMo (c : bool) (q : list MutationRecord) (w : World) : World :=
  {| doc := doc w; body := body w; ioTargets := ioTargets w;
     moConnected := c; moQueue := q;
     inflight := inflight w; nextCall := nextCall w; nextBlob := nextBlob w;
     revoked := revoked w; log := log w |}.

Definition setInflight (l : list (nat * Call)) (n : nat) (w : World) : World :=
  {| doc := doc w; body := body w; ioTargets := ioTargets w;
     moConnected := moConnected w; moQueue := moQueue w;
     inflight := l; nextCall := n; nextBlob := nextBlob w;
     revoked := revoked w; log := log w |}.

Definition setBlobs (n : nat) (r : list string) (w : World) : World :=
  {| doc := doc w; body := body w; ioTargets := ioTargets w;
     moConnected := moConnected w; moQueue := moQueue w;
     inflight := inflight w; nextCall := nextCall w; nextBlob := n;
     revoked := r; log := log w |}.

Definition emit (e : Effect) (w : World) : World :=
  {| doc := doc w; body := body w; ioTargets := ioTargets w;
     moConnected := moConnected w; moQueue := moQueue w;
     inflight := inflight w; nextCall := nextCall w; nextBlob := nextBlob w;
     revoked := revoked w; log := e :: log w |}.

Definition updateEl (i : nat) (f : Element -> Element) (w : World) : World :=
  setDoc (alter f i (doc w)) w.

(** An element is in the observed tree when it is [document.body] or
    below it. *)
Definition inDocument (w : World) (k : nat) : bool :=
  (k =? body w)%nat || matchesAt (doc w) (fun e => inb (body w) (ancestors e)) k.

(** The browser queues a record for a mutation at [k] while the observer
    is connected and [k] is in the observed subtree. *)
Definition queueRecord (k : nat) (r : MutationRecord) (w : World) : World :=
  if moConnected w && inDocument w k then setMo true (moQueue w ++ r :: nil) w else w.

(** [setOverlay(img)]. *)
Definition setOverlay (w : World) (i : nat) : World :=
  match setOverlayDoc (doc w) i with
  | (d, Some (h, o)) => queueRecord h (ChildList (o :: nil)) (setDoc d w)
  | (_, None) => w
  end.

Definition markProcessed (w : World) (i : nat) : World :=
  emit (Marked i) (updateEl i markProcessedEl w).

(** [s.startsWith(p)]. *)
Fixpoint startsWith (s p : string) {struct p} : bool :=
  match p with
  | EmptyString => true
  | String c p' =>
      match s with
      | EmptyString => false
      | String c' s' => Ascii.eqb c c' && startsWith s' p'
      end
  end.

Definition string_of_nat (n : nat) : string :=
  DecimalString.NilEmpty.string_of_uint (Nat.to_uint n).

(** [URL.createObjectURL]: a URL never issued before. *)
Definition blobUrl (n : nat) : string := "blob:" ++ string_of_nat n.

(** [img.src = url] on the image: the attribute changes, a new request
    starts ([complete] is false until it settles) and the mutation is
    recorded. *)
Definition assignSrc (w : World) (i : nat) (url : string) : World :=
  queueRecord i (AttrSrc i)
    (updateEl i (fun e => withRequest url (currentSrc e) false
                            (naturalWidth e) (naturalHeight e) e) w).

(** ** [process] after [bakeWatermark] settled: lines 236-253 *)

Definition installBaked (w : World) (i : nat) (url : string) : World :=
  let prev := match doc w !! i with Some img => wmUrl (dataset img) | None => None end in
  let w1 := emit (Installed i url) (assignSrc w i url) in
  let w2 := updateEl i (withWmUrl (Some url)) w1 in
  let w3 := match prev with
            | Some p =>
                if negb (String.eqb p EmptyString) && startsWith p "blob:"
                then emit (Revoked p) (setBlobs (nextBlob w2) (p :: revoked w2) w2)
                else w2
            | None => w2
            end in
  markProcessed w3 i.

(** The handle that [process] releases when it installs a new source on
    [img]: the previous [dataset.wmUrl], if it is a blob URL. *)
Definition releasedBy (img : Element) : list string :=
  match wmUrl (dataset img) with
  | Some p => if negb (String.eqb p EmptyString) && startsWith p "blob:" then p :: nil else nil
  | None => nil
  end.

Definition fallback (w : World) (i : nat) : World :=
  markProcessed (setOverlay (emit (OverlayCall i) w) i) i.

(** How a call of [process] can end: by returning, or by an exception
    escaping to its caller. *)
Inductive Completion :=
| Returned (w : World)
| Thrown (e : BakeError) (w : World).

(** The [try]/[catch] of [process] around the awaited bake. *)
Definition processSettle (w : World) (i : nat) (r : BakeError + string) : Completion :=
  match r with
  | inr url =>
      if negb (String.eqb url EmptyString) then Returned (installBaked w i url)
      else Returned (fallback w i)
  | inl _ => Returned (fallback w i)
  end.

Definition worldOf (c : Completion) : World :=
  match c with Returned w => w | Thrown _ w => w end.

(** ** [bakeWatermark], one [await] at a time *)

Definition addCall (t : Call) (w : World) : World :=
  setInflight (inflight w ++ (nextCall w, t) :: nil) (S (nextCall w)) w.

(** A bake that settled hands its result to the waiting [process]. *)
Definition settle (w : World) (i : nat) (r : BakeError + string) : World :=
  worldOf (processSettle w i r).

(** Lines 77-92, after [ensureLoaded] resolved: read the natural size,
    start loading the anonymous copy of the displayed resource. *)
Definition bakeLoaded (w : World) (i : nat) : World :=
  match doc w !! i with
  | None => w
  | Some img =>
      let nw := naturalWidth img in
      let nh := naturalHeight img in
      if ((nw =? 0) || (nh =? 0))%N then settle w i (inl NoSize)
      else
        let url := if String.eqb (currentSrc img) EmptyString then src img else currentSrc img in
        addCall (AwaitProbe i nw nh url) w
  end.

(** Lines 94-172, after the copy loaded: canvas, layout, drawing and the
    call of [toBlob]. *)
Definition bakeProbed (env : Env) (w : World) (i : nat) (nw nh : N) (url : string) : World :=
  match doc w !! i with
  | None => w
  | Some img =>
      if negb (context2d env) then settle w i (inl CtxError)
      else
        let '(dispW, dispH) := displayedSize img nw nh in
        let w1 := emit (Drawn i url (layout (metrics env) nw nh dispW dispH)) w in
        if tainted env url then settle w1 i (inl Tainted)
        else addCall (AwaitExport i) w1
  end.

(** What [canvas.toBlob] hands to its callback, and for a null blob what
    [canvas.toDataURL] does: its payload, or an exception. *)
Inductive ExportResult :=
| BlobReady
| BlobNull (dataUrl : option string).

(** Lines 153-164: the [toBlob] callback. *)
Definition bakeExported (w : World) (i : nat) (r : ExportResult) : World :=
  match r with
  | BlobReady =>
      let url := blobUrl (nextBlob w) in
      settle (setBlobs (S (nextBlob w)) (revoked w) w) i (inr url)
  | BlobNull (Some payload) => settle w i (inr ("data:" ++ payload))
  | BlobNull None => settle w i (inl ToDataURLError)
  end.

(** [ensureLoaded]: resolved at once for a loaded image, otherwise the
    promise stays pending with its two listeners registered. *)
Definition ensureLoaded (img : Element) : bool :=
  complete img && (0 <? naturalWidth img)%N.

(** [process(img)] up to its first suspension. *)
Definition processStart (w : World) (i : nat) : World :=
  match doc w !! i with
  | None => w
  | Some img =>
      if alreadyProcessed img || exclude img then w
      else if ensureLoaded img then bakeLoaded w i
      else addCall (AwaitLoaded i) w
  end.

(** ** Observers *)

Definition eligibleAt (d : Doc) (k : nat) : bool :=
  matchesAt d (fun e => negb (alreadyProcessed e) && negb (exclude e)) k.

Definition observe (k : nat) (w : World) : World := setIo ({[k]} ∪ ioTargets w) w.
Definition unobserve (k : nat) (w : World) : World := setIo (ioTargets w ∖ {[k]}) w.

(** The callback of the IntersectionObserver, for one entry: lines
    259-262. *)
Definition ioEntry (w : World) (e : nat * bool) : World :=
  let '(target, isIntersecting) := e in
  if isIntersecting && matchesAt (doc w) isImage target
  then unobserve target (processStart w target)
  else w.

Definition ioCallback (w : World) (entries : list (nat * bool)) : World :=
  fold_left ioEntry entries w.

(** The entries of one batch. The browser queues entries for the
    targets of the observer only, so every target of the batch is
    observed when the callback starts; what the callback unobserves
    while it runs does not remove entries already in the batch. *)
Definition reported (w : World) (entries : list (nat * bool)) : list (nat * bool) :=
  List.filter (fun e => bool_decide (e.1 ∈ ioTargets w)) entries.

(** The images selected by [n.querySelectorAll(selectors.join(","))]. *)
Definition scopedImagesUnder (d : Doc) (n : nat) : list nat :=
  List.map fst
    (List.filter (fun kv : nat * Element => inScope d kv.2 && inb n (ancestors kv.2))
       (map_to_list d)).

Definition observeIfEligible (w : World) (k : nat) : World :=
  if eligibleAt (doc w) k then observe k w else w.

Definition moAdded (w : World) (n : nat) : World :=
  match doc w !! n with
  | None => w
  | Some e =>
      if isImage e then observeIfEligible w n
      else fold_left observeIfEligible (scopedImagesUnder (doc w) n) w
  end.

(** The callback of the MutationObserver, for one record. *)
Definition moRecord (w : World) (m : MutationRecord) : World :=
  match m with
  | ChildList added => fold_left moAdded added w
  | AttrSrc target =>
      if matchesAt (doc w) isImage target then
        let w1 := updateEl target (withProcessed (Some EmptyString)) w in
        if matchesAt (doc w1) (fun e => negb (exclude e)) target
        then observe target w1 else w1
      else w
  end.

Definition moCallback (w : World) (mutations : list MutationRecord) : World :=
  fold_left moRecord mutations w.

(** A descendant of [document.body]. *)
Definition belowBody (w : World) (e : Element) : bool := inb (body w) (ancestors e).

(** [document.querySelectorAll(selectors.join(","))]. *)
Definition scopedImages (w : World) : list nat :=
  List.map fst
    (List.filter (fun kv : nat * Element => inScope (doc w) kv.2 && belowBody w kv.2)
       (map_to_list (doc w))).

(** [observeExisting()] and [mo.observe(document.body, ...)]. *)
Definition mount (w : World) : World :=
  let w1 := fold_left observeIfEligible (scopedImages w) w in
  setMo true (moQueue w1) w1.

(** [el.remove()]: [x] loses its parent; the chains of its descendants
    end at [x]. *)
Fixpoint cutAt (x : nat) (l : list nat) : list nat :=
  match l with
  | nil => nil
  | y :: rest => if (x =? y)%nat then y :: nil else y :: cutAt x rest
  end.

Definition removeEl (d : Doc) (x : nat) : Doc :=
  alter (withAncestors nil) x
    ((fun e => if inb x (ancestors e) then withAncestors (cutAt x (ancestors e)) e else e) <$> d).

(** [document.querySelectorAll("[data-wm-overlay='1']")]: the marked
    elements below [document.body]. *)
Definition documentOverlays (w : World) : list nat :=
  List.map fst
    (List.filter (fun kv : nat * Element => isOverlay kv.2 && belowBody w kv.2)
       (map_to_list (doc w))).

(** The cleanup returned by the effect. *)
Definition teardown (w : World) : World :=
  let w1 := setIo ∅ w in
  let w2 := setMo false nil w1 in
  setDoc (fold_left removeEl (documentOverlays w2) (doc w2)) w2.

(** ** Events of the page and the event loop *)

Inductive Event :=
| Intersect (entries : list (nat * bool))   (* the IntersectionObserver fires *)
| ImgLoad (i : nat) (nw nh : N)             (* element [i] fires [load] *)
| ImgFail (i : nat)                         (* element [i] fires [error] *)
| ProbeLoad (t : nat)                       (* the copy of call [t] fires [onload] *)
| ProbeFail (t : nat)                       (* the copy of call [t] fires [onerror] *)
| Exported (t : nat) (r : ExportResult)     (* the [toBlob] callback of call [t] *)
| Deliver                                   (* the MutationObserver fires *)
| HostSetSrc (i : nat) (s : string)         (* the page assigns [src] of [i] *)
| HostInsert (root : nat) (nodes : list (nat * Element))  (* the page inserts a subtree *)
| Unmount.                                  (* the effect cleanup runs *)

Definition awaitsLoad (i : nat) (t : nat * Call) : bool :=
  match t.2 with AwaitLoaded j => (i =? j)%nat | _ => false end.

(** The suspended call with identity [t], taken out of the table. *)
Fixpoint extractCall (t : nat) (l : list (nat * Call)) : option (Call * list (nat * Call)) :=
  match l with
  | nil => None
  | p :: rest =>
      if (p.1 =? t)%nat then Some (p.2, rest)
      else match extractCall t rest with
           | Some (k, rest') => Some (k, p :: rest')
           | None => None
           end
  end.

Definition takeCall (t : nat) (w : World) : option Call * World :=
  match extractCall t (inflight w) with
  | Some (k, rest) => (Some k, setInflight rest (nextCall w) w)
  | None => (None, w)
  end.

(** The element finished a request: [load] with the natural size of the
    new image, or [error]. *)
Definition requestDone (nw nh : N) (e : Element) : Element :=
  withRequest (src e) (src e) true nw nh e.

(** The [onLoad] / [onError] listeners of every pending [ensureLoaded]
    of the element run, in registration order. *)
Definition fireLoad (w : World) (i : nat) (k : World -> World) : World :=
  let waiting := List.filter (awaitsLoad i) (inflight w) in
  let rest := List.filter (fun t => negb (awaitsLoad i t)) (inflight w) in
  fold_left (fun w _ => k w) waiting (setInflight rest (nextCall w) w).

Definition insertNodes (d : Doc) (nodes : list (nat * Element)) : Doc :=
  fold_left (fun d kv => match d !! kv.1 with
                         | None => <[kv.1 := kv.2]> d
                         | Some _ => d
                         end) nodes d.

Definition step (env : Env) (w : World) (ev : Event) : World :=
  match ev with
  | Intersect entries => ioCallback w (reported w entries)
  | ImgLoad i nw nh =>
      fireLoad (updateEl i (requestDone nw nh) w) i (fun w => bakeLoaded w i)
  | ImgFail i =>
      fireLoad (updateEl i (requestDone 0 0) w) i (fun w => settle w i (inl ImgError))
  | ProbeLoad t =>
      match takeCall t w with
      | (Some (AwaitProbe i nw nh url), w1) => bakeProbed env w1 i nw nh url
      | _ => w
      end
  | ProbeFail t =>
      match takeCall t w with
      | (Some (AwaitProbe i _ _ _), w1) => settle w1 i (inl CorsBlocked)
      | _ => w
      end
  | Exported t r =>
      match takeCall t w with
      | (Some (AwaitExport i), w1) => bakeExported w1 i r
      | _ => w
      end
  | Deliver =>
      if moConnected w then moCallback (setMo true nil w) (moQueue w) else w
  | HostSetSrc i s => assignSrc w i s
  | HostInsert root nodes =>
      queueRecord root (ChildList (root :: nil)) (setDoc (insertNodes (doc w) nodes) w)
  | Unmount => teardown w
  end.

Definition run (env : Env) (w : World) (evs : list Event) : World :=
  fold_left (step env) evs w.

(** ** Failures of the baking pipeline

    [BakeFailure env w ev i e w0]: in state [w], event [ev] makes the
    [bakeWatermark(img)] awaited by a [process] call for element [i]
    reject with [e]; [w0] is the state at the rejection, before the
    [catch] of [process] runs. The cases are the [reject]/[throw] sites
    of lines 48, 79, 89, 98, 162 and 170. *)
Inductive BakeFailure (env : Env) (w : World) : Event -> nat -> BakeError -> World -> Prop :=
| FailLoad i t :
    List.filter (awaitsLoad i) (inflight w) = (t, AwaitLoaded i) :: nil ->
    BakeFailure env w (ImgFail i) i ImgError
      (setInflight (List.filter (fun t => negb (awaitsLoad i t)) (inflight w)) (nextCall w)
         (updateEl i (requestDone 0 0) w))
| FailNoSize i nw nh t :
    List.filter (awaitsLoad i) (inflight w) = (t, AwaitLoaded i) :: nil ->
    is_Some (doc w !! i) ->
    nw = 0%N \/ nh = 0%N ->
    BakeFailure env w (ImgLoad i nw nh) i NoSize
      (setInflight (List.filter (fun t => negb (awaitsLoad i t)) (inflight w)) (nextCall w)
         (updateEl i (requestDone nw nh) w))
| FailProbe i t nw nh url rest :
    extractCall t (inflight w) = Some (AwaitProbe i nw nh url, rest) ->
    BakeFailure env w (ProbeFail t) i CorsBlocked (setInflight rest (nextCall w) w)
| FailContext i t nw nh url rest :
    extractCall t (inflight w) = Some (AwaitProbe i nw nh url, rest) ->
    is_Some (doc w !! i) ->
    context2d env = false ->
    BakeFailure env w (ProbeLoad t) i CtxError (setInflight rest (nextCall w) w)
| FailTainted i t nw nh url rest img :
    extractCall t (inflight w) = Some (AwaitProbe i nw nh url, rest) ->
    doc w !! i = Some img ->
    context2d env = true ->
    tainted env url = true ->
    BakeFailure env w (ProbeLoad t) i Tainted
      (emit (Drawn i url (layout (metrics env) nw nh
                            (displayedSize img nw nh).1 (displayedSize img nw nh).2))
         (setInflight rest (nextCall w) w))
| FailExport i t rest :
    extractCall t (inflight w) = Some (AwaitExport i, rest) ->
    BakeFailure env w (Exported t (BlobNull None)) i ToDataURLError
      (setInflight rest (nextCall w) w).

(** [e'] is [e] up to its computed position. *)
Definition restyled (e e' : Element) : Prop := exists p, e' = withPosition p e.

(** ** Observation and overlays, as predicates on the state *)

(** No observer is registered: the IntersectionObserver has no target,
    the MutationObserver is disconnected and holds no record. *)
Definition tornDown (w : World) : Prop :=
  ioTargets w = ∅ /\ moConnected w = false /\ moQueue w = nil.

(** Element [k] is an overlay node attached to the document. *)
Definition overlayAttached (w : World) (k : nat) : Prop :=
  exists e, doc w !! k = Some e /\ isOverlay e = true /\ belowBody w e = true.

(** [w'] has the observers of [w]: the same targets, the same
    connection, and no new record while disconnected. *)
Definition obsSame (w w' : World) : Prop :=
  ioTargets w' = ioTargets w /\ moConnected w' = moConnected w
  /\ (moConnected w = false -> moQueue w' = moQueue w).

(** ** A pending loader, as predicates on the state *)

Definition callImage (t : Call) : nat :=
  match t with
  | AwaitLoaded i => i
  | AwaitProbe i _ _ _ => i
  | AwaitExport i => i
  end.

(** The effects on element [i] recorded in a log. *)
Definition aboutImage (i : nat) (e : Effect) : bool :=
  match e with
  | Drawn j _ _ => (j =? i)%nat
  | Installed j _ => (j =? i)%nat
  | OverlayCall j => (j =? i)%nat
  | Marked j => (j =? i)%nat
  | Revoked _ => false
  end.

Definition effectsOn (i : nat) (l : list Effect) : list Effect :=
  List.filter (aboutImage i) l.

(** The loader would wait on this element, and the element is not
    marked processed. *)
Definition stuck (e : Element) : Prop :=
  ensureLoaded e = false /\ alreadyProcessed e = false.

(** [w'] keeps a pending loader of element [i] pending: the element
    stays [stuck], no call for [i] gets past the loader, none of its
    waiting loaders is dropped, and no effect on [i] is added. *)
Definition keeps (i : nat) (w w' : World) : Prop :=
  (forall e, doc w !! i = Some e -> stuck e ->
     exists e', doc w' !! i = Some e' /\ stuck e')
  /\ (forall t call, In (t, call) (inflight w') ->
        In (t, call) (inflight w) \/ callImage call <> i \/ call = AwaitLoaded i)
  /\ (forall t, In (t, AwaitLoaded i) (inflight w) -> In (t, AwaitLoaded i) (inflight w'))
  /\ effectsOn i (log w') = effectsOn i (log w).

(** The element fires neither [load] nor [error]. *)
Definition silentFor (i : nat) (ev : Event) : bool :=
  match ev with
  | ImgLoad j _ _ => negb (j =? i)%nat
  | ImgFail j => negb (j =? i)%nat
  | _ => true
  end.

(** Element [i] is [stuck] and every suspended call for it waits in the
    loader. *)
Definition pend (i : nat) (w : World) : Prop :=
  (exists e, doc w !! i = Some e /\ stuck e)
  /\ (forall t call, In (t, call) (inflight w) -> callImage call = i -> call = AwaitLoaded i).

Definition field {A} (f : Element -> A) (w : World) (k : nat) : option A :=
  f <$> doc w !! k.

(** ** Sample documents

    A page with a hero container holding one image, used to run the
    engine on concrete inputs. *)

Definition noData : Dataset :=
  {| dsRole := None; dsWm := None; noWm := None;
     wmProcessed := None; wmUrl := None; wmOverlay := None |}.

Definition sampleDiv (anc : list nat) (cls : list string) : Element :=
  {| isImage := false; ancestors := anc; classList := cls; roleAttr := None;
     dataset := noData; position := "static"; width := 0; height := 0;
     rectWidth := 0; rectHeight := 0; naturalWidth := 0; naturalHeight := 0;
     complete := false; src := EmptyString; currentSrc := EmptyString; overlayTiles := nil |}.

(** An image with natural size [nw] x [nh], laid out at [wd] x [ht]. *)
Definition sampleImg (anc : list nat) (nw nh wd ht : N) (c : bool) (s : string) : Element :=
  {| isImage := true; ancestors := anc; classList := nil; roleAttr := None;
     dataset := noData; position := "static"; width := wd; height := ht;
     rectWidth := ofN wd; rectHeight := ofN ht;
     naturalWidth := nw; naturalHeight := nh;
     complete := c; src := s; currentSrc := s; overlayTiles := nil |}.

Definition emptyWorld (d : Doc) : World :=
  {| doc := d; body := 0; ioTargets := ∅; moConnected := false; moQueue := nil;
     inflight := nil; nextCall := 0; nextBlob := 0; revoked := nil; log := nil |}.

(** body(0) > div.property-hero(1) > img(2). *)
Definition heroDoc (img : Element) : Doc :=
  <[2 := img]> (<[1 := sampleDiv (0 :: nil) ("property-hero" :: nil)]>
               (<[0 := sampleDiv nil nil]> ∅)).

Definition heroImg : Element :=
  sampleImg (1 :: 0 :: nil) 200 200 150 150 true "https://cdn.example/a.jpg".

Definition heroWorld : World := Eval vm_compute in mount (emptyWorld (heroDoc heroImg)).

(** Glyphs 5/8 em wide, the full stop 1/2 em: the watermark text
    measures 300px at 24px with 1px letter spacing. *)
Definition sampleEm (c : ascii) : Q :=
  if Ascii.eqb c "."%char then (1 # 2)%Q else (5 # 8)%Q.

Definition sampleMetrics : Metrics := fun f c => (ofZ f * sampleEm c)%Q.

Definition sampleEnv : Env :=
  {| metrics := sampleMetrics; context2d := true; tainted := fun _ => false |}.

(** An element that has not loaded and has no layout size. *)
Definition unloadedImg : Element :=
  sampleImg (1 :: 0 :: nil) 0 0 0 0 false "https://cdn.example/a.jpg".

(** An element that has not loaded, laid out at 500 x 500. *)
Definition pendingImg : Element :=
  sampleImg (1 :: 0 :: nil) 0 0 500 500 false "https://cdn.example/a.jpg".

Definition iconImg : Element :=
  sampleImg (1 :: 0 :: nil) 100 100 100 100 true "https://cdn.example/icon.png".

Definition thresholdImg : Element :=
  sampleImg (1 :: 0 :: nil) 120 120 120 120 true "https://cdn.example/b.jpg".

(** body(0) > div.property-hero(1) > img(2), img(3); and a detached
    image (5) without parent. *)
Definition galleryDoc : Doc :=
  <[5 := sampleImg nil 200 200 150 150 true "https://cdn.example/d.jpg"]>
  (<[3 := sampleImg (1 :: 0 :: nil) 300 200 150 100 true "https://cdn.example/c.jpg"]>
  (heroDoc heroImg)).

Definition galleryWorld : World := Eval vm_compute in mount (emptyWorld galleryDoc).

(** The hero image after a first bake (it displays object URL 0 and
    records it as its handle) and a change of its source by the page:
    the new image has loaded, the record was delivered, the element
    entered the viewport again and the anonymous copy has loaded. The
    canvas export of the second bake is pending. *)
Definition rebakeWorld : World := Eval vm_compute in
  run sampleEnv heroWorld
    (Intersect ((2, true) :: nil) :: ProbeLoad 0 :: Exported 1 BlobReady
     :: HostSetSrc 2 "https://cdn.example/b.jpg" :: ImgLoad 2 200 200 :: Deliver
     :: Intersect ((2, true) :: nil) :: ProbeLoad 2 :: nil).

(** The hero image entered the viewport: its bake waits for the
    anonymous copy (call 0). *)
Definition probingWorld : World := Eval vm_compute in
  run sampleEnv heroWorld (Intersect ((2, true) :: nil) :: nil).

(** A broken image: its request completed without image data; laid out
    at 300 x 200. *)
Definition brokenImg : Element :=
  sampleImg (1 :: 0 :: nil) 0 0 300 200 true "https://cdn.example/missing.jpg".

Definition brokenWorld : World := Eval vm_compute in mount (emptyWorld (heroDoc brokenImg)).

(** The hero image entered the viewport and was drawn on the canvas:
    its bake waits for the [toBlob] callback (call 1). *)
Definition exportingWorld : World := Eval vm_compute in
  run sampleEnv heroWorld (Intersect ((2, true) :: nil) :: ProbeLoad 0 :: nil).

(** The page with an image that is still loading. *)
Definition pendingWorld : World := Eval vm_compute in mount (emptyWorld (heroDoc pendingImg)).

(** The first bake of the hero image: it enters the viewport, the
    anonymous copy loads, the canvas exports a blob. The page never
    touches [src]. *)
Definition firstBake : list Event :=
  Intersect ((2, true) :: nil) :: ProbeLoad 0 :: Exported 1 BlobReady :: nil.

(** The image is reported visible again, the source installed by the
    engine loads, and the pipeline runs a second time. *)
Definition secondBake : list Event :=
  Intersect ((2, true) :: nil) :: ImgLoad 2 200 200 :: ProbeLoad 3
  :: Exported 4 BlobReady :: nil.

(** ** Outcomes of a call, as predicates on two states *)

(** What the two ways out of [process] leave behind. *)
Definition installedOutcome (w w' : World) (i : nat) (img : Element) (url : string) : Prop :=
  log w' = (Marked i :: List.map Revoked (releasedBy img) ++ Installed i url :: log w)%list
  /\ field src w' i = Some url
  /\ field (fun e => wmUrl (dataset e)) w' i = Some (Some url)
  /\ (forall k, overlayAttached w' k -> overlayAttached w k).

Definition overlayOutcome (w w' : World) (i : nat) (img : Element) : Prop :=
  log w' = Marked i :: OverlayCall i :: log w
  /\ field src w' i = Some (src img)
  /\ field (fun e => wmUrl (dataset e)) w' i = Some (wmUrl (dataset img))
  /\ revoked w' = revoked w /\ nextBlob w' = nextBlob w.

(** The resource that [bakeWatermark] loads anonymously: line 82,
    [img.currentSrc || img.src]. *)
Definition bakeSource (img : Element) : string :=
  if String.eqb (currentSrc img) EmptyString then src img else currentSrc img.

(** Identities of suspended calls are below the next one to be issued. *)
Definition callsFresh (w : World) : Prop :=
  forall t c, In (t, c) (inflight w) -> (t < nextCall w)%nat.



(** * Theorems *)

(** ** Eligibility filter *)

Lemma exclude_unfold img :
  exclude img =
  optedOut img
  || (orElse (naturalWidth img) (width img) <? 120)%N
  || (orElse (naturalHeight img) (height img) <? 120)%N.
Proof.
  unfold exclude, optedOut.
  assert (Hz : forall a, orElse a 0 = a) by (intros a; unfold orElse; destruct (N.eqb_spec a 0); congruence).
  rewrite !Hz.
  destruct (isStr _ "true"); [reflexivity|].
  destruct (contains _ "no-wm"); [reflexivity|].
  simpl. destruct (_ || _); reflexivity.
Qed.

(** C6, as stated, fails: an element with zero natural size, no layout
    size and no opt-out marker is excluded by the filter. *)
Lemma C6_zero_size_excluded :
  ~ (forall img : Element,
        naturalWidth img = 0%N -> naturalHeight img = 0%N ->
        optedOut img = false -> exclude img = false).
Proof.
  intros H. specialize (H unloadedImg eq_refl eq_refl eq_refl). discriminate H.
Qed.

(** C6, amended: for an element whose natural size is zero the filter
    judges the layout width and height in its place; the element is
    excluded exactly when it is opted out or one of them is below 120,
    so it passes the filter when both are at least 120 and is rejected
    when they are zero too. *)
Theorem C6_zero_natural_size_uses_layout_size (img : Element)
    (Hw : naturalWidth img = 0%N) (Hh : naturalHeight img = 0%N) :
  exclude img = optedOut img || (width img <? 120)%N || (height img <? 120)%N
  /\ (optedOut img = false -> (120 <= width img)%N -> (120 <= height img)%N ->
      exclude img = false)
  /\ (width img = 0%N \/ height img = 0%N -> exclude img = true).
Proof.
  rewrite exclude_unfold, Hw, Hh. unfold orElse. simpl.
  split; [reflexivity|]. split.
  - intros -> Hw' Hh'. simpl.
    apply N.ltb_ge in Hw'. apply N.ltb_ge in Hh'. by rewrite Hw', Hh'.
  - intros [-> | ->]; simpl; [by rewrite orb_true_r|by rewrite !orb_true_r].
Qed.

Lemma C6_zero_natural_size_uses_layout_size_witness :
  exclude pendingImg = optedOut pendingImg || (width pendingImg <? 120)%N
                       || (height pendingImg <? 120)%N
  /\ (optedOut pendingImg = false -> (120 <= width pendingImg)%N ->
      (120 <= height pendingImg)%N -> exclude pendingImg = false)
  /\ (width pendingImg = 0%N \/ height pendingImg = 0%N -> exclude pendingImg = true).
Proof. apply (C6_zero_natural_size_uses_layout_size pendingImg); reflexivity. Defined.

(** C7, as stated, fails: an element with zero natural size laid out at
    500 x 500 has a natural width below 120 and is not excluded. *)
Lemma C7_natural_size_not_decisive :
  ~ (forall img : Element,
        optedOut img = false ->
        (exclude img = true <->
         (naturalWidth img < 120)%N \/ (naturalHeight img < 120)%N)).
Proof.
  intros H. destruct (H pendingImg eq_refl) as [_ H2].
  assert (Hx : exclude pendingImg = true) by (apply H2; left; reflexivity).
  discriminate Hx.
Qed.

Lemma toUpperCase_idem (s : string) : toUpperCase (toUpperCase s) = toUpperCase s.
Proof.
  unfold toUpperCase. rewrite list_ascii_of_string_of_list_ascii, List.map_map.
  f_equal. apply List.map_ext. intros c.
  unfold upperChar at 1.
  destruct ((97 <=? nat_of_ascii (upperChar c)) && (nat_of_ascii (upperChar c) <=? 122))%nat eqn:E;
    [|reflexivity].
  exfalso. apply andb_true_iff in E as [E1 E2].
  apply Nat.leb_le in E1, E2. unfold upperChar in E1, E2.
  destruct ((97 <=? nat_of_ascii c) && (nat_of_ascii c <=? 122))%nat eqn:F.
  - apply andb_true_iff in F as [F1 F2]. apply Nat.leb_le in F1, F2.
    rewrite nat_ascii_embedding in E1 by lia. lia.
  - apply andb_false_iff in F as [F|F]; apply Nat.leb_gt in F; lia.
Qed.



(** ** Overlay fallback *)

Section Overlay.
Implicit Types (d : Doc) (w : World) (e : Element).

Lemma find_pointwise (p q : nat -> bool) (l : list nat) :
  (forall k, p k = q k) -> List.find p l = List.find q l.
Proof. intros H. induction l as [|k l IH]; simpl; [done|]. by rewrite H, IH. Qed.

Lemma positioned_fields host :
  ancestors (positioned host) = ancestors host
  /\ dataset (positioned host) = dataset host
  /\ classList (positioned host) = classList host
  /\ roleAttr (positioned host) = roleAttr host.
Proof. unfold positioned. by destruct (String.eqb _ _). Qed.

Lemma matchesHost_positioned host : matchesHost (positioned host) = matchesHost host.
Proof.
  destruct (positioned_fields host) as (_ & Hd & Hc & Hr).
  unfold matchesHost. by rewrite Hd, Hc, Hr.
Qed.

(** What [setOverlay] does to a host without overlay. *)
Lemma setOverlayDoc_attach d i img h host :
  d !! i = Some img -> resolveHost d i img = Some h -> d !! h = Some host ->
  overlaysUnder d h = ∅ ->
  exists o tiles,
    d !! o = None /\ o <> h
    /\ setOverlayDoc d i
       = (<[o := overlayElement h host tiles]> (<[h := positioned host]> d), Some (h, o)).
Proof.
  intros Hi Hh Hhost Hnone.
  unfold setOverlayDoc. rewrite Hi, Hh, Hhost, bool_decide_eq_true_2 by done.
  set (d1 := <[h := positioned host]> d).
  assert (Hfresh : fresh (dom d1) ∉ dom d1) by apply is_fresh.
  assert (Hne : fresh (dom d1) <> h).
  { intros Heq. apply Hfresh. rewrite Heq. subst d1. rewrite dom_insert_L. set_solver. }
  eexists _, _. split; [|split; [exact Hne|reflexivity]].
  apply not_elem_of_dom in Hfresh. subst d1.
  by rewrite lookup_insert_ne in Hfresh.
Qed.

Lemma overlaysUnder_attach d h host o tiles :
  d !! h = Some host -> d !! o = None -> overlaysUnder d h = ∅ ->
  overlaysUnder (<[o := overlayElement h host tiles]> (<[h := positioned host]> d)) h
  = {[o := overlayElement h host tiles]}.
Proof.
  intros Hhost Ho Hnone. unfold overlaysUnder in *.
  rewrite map_filter_insert_True.
  2:{ simpl. unfold inb. simpl. by rewrite Nat.eqb_refl. }
  rewrite map_filter_insert_not'.
  - by rewrite Hnone, insert_empty.
  - intros HP. eapply (map_filter_empty_not_lookup _ _ h host Hnone); [|done].
    simpl in *. destruct (positioned_fields host) as (Ha & Hd & _).
    unfold isOverlay in *. by rewrite Ha, Hd in HP.
  - intros y Hy HP. by eapply (map_filter_empty_not_lookup _ _ h y Hnone).
Qed.

Lemma matchesAt_attach d h host o tiles k :
  d !! h = Some host -> d !! o = None ->
  matchesAt (<[o := overlayElement h host tiles]> (<[h := positioned host]> d)) matchesHost k
  = matchesAt d matchesHost k.
Proof.
  intros Hhost Ho. unfold matchesAt.
  destruct (decide (k = o)) as [->|Hko].
  { by rewrite lookup_insert_eq, Ho. }
  rewrite lookup_insert_ne by done.
  destruct (decide (k = h)) as [->|Hkh].
  - by rewrite lookup_insert_eq, Hhost, matchesHost_positioned.
  - by rewrite lookup_insert_ne.
Qed.

(** Attaching an overlay does not change which ancestor an image
    resolves to. *)
Lemma resolveHost_attach d h host o tiles j img :
  d !! h = Some host -> d !! o = None -> d !! j = Some img ->
  exists img',
    <[o := overlayElement h host tiles]> (<[h := positioned host]> d) !! j = Some img'
    /\ resolveHost (<[o := overlayElement h host tiles]> (<[h := positioned host]> d)) j img'
       = resolveHost d j img.
Proof.
  intros Hhost Ho Hj.
  assert (Hjo : j <> o) by (intros ->; congruence).
  rewrite lookup_insert_ne by done.
  assert (Hres : forall img', ancestors img' = ancestors img ->
            resolveHost (<[o := overlayElement h host tiles]> (<[h := positioned host]> d)) j img'
            = resolveHost d j img).
  { intros img' Ha. unfold resolveHost, closest, parentElement. rewrite Ha.
    by rewrite (find_pointwise _ (matchesAt d matchesHost))
      by (intros k; by apply matchesAt_attach). }
  destruct (decide (j = h)) as [->|Hjh].
  - rewrite lookup_insert_eq. eexists; split; [done|].
    apply Hres. assert (img = host) as -> by congruence.
    apply positioned_fields.
  - rewrite lookup_insert_ne by done. eauto.
Qed.

Lemma setOverlay_doc w i :
  doc (setOverlay w i) = (setOverlayDoc (doc w) i).1.
Proof.
  unfold setOverlay. destruct (setOverlayDoc (doc w) i) as [d [[h o]|]] eqn:E; simpl.
  - unfold queueRecord. by destruct (_ && _).
  - unfold setOverlayDoc in E.
    repeat (case_match; simplify_eq; try done).
Qed.

Lemma setOverlay_noop w i img h :
  doc w !! i = Some img -> resolveHost (doc w) i img = Some h ->
  overlaysUnder (doc w) h <> ∅ -> setOverlay w i = w.
Proof.
  intros Hi Hh Hov. unfold setOverlay, setOverlayDoc. rewrite Hi, Hh.
  destruct (doc w !! h); [|done]. by rewrite bool_decide_eq_false_2.
Qed.

Lemma setOverlay_detached w i img :
  doc w !! i = Some img -> closest (doc w) i img = None -> parentElement img = None ->
  setOverlay w i = w.
Proof.
  intros Hi Hc Hp. unfold setOverlay, setOverlayDoc, resolveHost. by rewrite Hi, Hc, Hp.
Qed.
End Overlay.

(** C9: [setOverlay] is idempotent per ancestor. Applied to an image
    whose resolved ancestor already holds an overlay it changes nothing;
    any number (at least one) of applications for images resolving to
    the same ancestor leave exactly one overlay node below it; and for
    an image with no qualifying ancestor and no parent element it
    changes nothing. *)
Theorem C9_overlay_idempotent_per_ancestor (w : World) (h : nat) :
  (forall i img,
      doc w !! i = Some img -> resolveHost (doc w) i img = Some h ->
      overlaysUnder (doc w) h <> ∅ -> setOverlay w i = w)
  /\ (forall imgs : list nat,
         imgs <> nil -> is_Some (doc w !! h) ->
         (forall i, In i imgs ->
            exists img, doc w !! i = Some img /\ resolveHost (doc w) i img = Some h) ->
         overlaysUnder (doc w) h = ∅ ->
         size (overlaysUnder (doc (fold_left setOverlay imgs w)) h) = 1)
  /\ (forall i img,
         doc w !! i = Some img -> closest (doc w) i img = None ->
         parentElement img = None -> setOverlay w i = w).
Proof.
  split; [|split].
  - intros i img. apply setOverlay_noop.
  - intros [|i rest] Hne [host Hhost] Himgs Hnone; [done|]. simpl.
    destruct (Himgs i (or_introl eq_refl)) as (img & Hi & Hres).
    destruct (setOverlayDoc_attach _ _ _ _ _ Hi Hres Hhost Hnone)
      as (o & tiles & Ho & Hoh & Hset).
    set (d' := <[o := overlayElement h host tiles]> (<[h := positioned host]> (doc w))) in *.
    assert (Hdoc : doc (setOverlay w i) = d') by (by rewrite setOverlay_doc, Hset).
    assert (Hov : overlaysUnder d' h = {[o := overlayElement h host tiles]})
      by (by apply overlaysUnder_attach).
    assert (Hfix : forall l, (forall j, In j l -> In j rest) ->
              fold_left setOverlay l (setOverlay w i) = setOverlay w i).
    { induction l as [|j l IH]; intros Hl; [done|]. simpl.
      destruct (Himgs j (or_intror (Hl j (or_introl eq_refl)))) as (imgj & Hj & Hresj).
      destruct (resolveHost_attach _ h host o tiles j imgj Hhost Ho Hj) as (img' & Hj' & Hres').
      rewrite (setOverlay_noop _ j img' h).
      - apply IH. intros k Hk. apply Hl. by right.
      - by rewrite Hdoc.
      - rewrite Hdoc. subst d'. by rewrite Hres'.
      - rewrite Hdoc, Hov. apply insert_non_empty. }
    rewrite Hfix by done. rewrite Hdoc, Hov. apply map_size_singleton.
  - intros i img. apply setOverlay_detached.
Qed.

Lemma C9_overlay_idempotent_per_ancestor_witness :
  size (overlaysUnder (doc (fold_left setOverlay (2 :: 3 :: 2 :: nil) galleryWorld)) 1) = 1
  /\ setOverlay (setOverlay galleryWorld 2) 3 = setOverlay galleryWorld 2
  /\ setOverlay galleryWorld 5 = galleryWorld.
Proof.
  destruct (C9_overlay_idempotent_per_ancestor galleryWorld 1) as (_ & Hmany & Hdet).
  destruct (C9_overlay_idempotent_per_ancestor (setOverlay galleryWorld 2) 1) as (Hnoop & _).
  split; [|split].
  - apply Hmany.
    + discriminate.
    + by eexists.
    + intros i [<-|[<-|[<-|[]]]]; eexists; split; reflexivity.
    + by vm_compute.
  - eapply Hnoop; [reflexivity|reflexivity|by vm_compute].
  - eapply Hdet; reflexivity.
Defined.

(** ** Handles *)

Lemma string_of_nat_inj (n m : nat) : string_of_nat n = string_of_nat m -> n = m.
Proof.
  unfold string_of_nat. intros H. apply DecimalNat.Unsigned.to_uint_inj.
  pose proof (DecimalString.NilEmpty.usu (Nat.to_uint n)) as Hn.
  pose proof (DecimalString.NilEmpty.usu (Nat.to_uint m)) as Hm.
  rewrite H in Hn. congruence.
Qed.

Lemma blobUrl_inj (n m : nat) : blobUrl n = blobUrl m -> n = m.
Proof.
  unfold blobUrl. intros H. cbv [append] in H. apply string_of_nat_inj. congruence.
Qed.

Lemma startsWith_blobUrl (n : nat) : startsWith (blobUrl n) "blob:" = true.
Proof. reflexivity. Qed.

Lemma startsWith_dataUrl (payload : string) : startsWith ("data:" ++ payload) "blob:" = false.
Proof. reflexivity. Qed.

Lemma startsWith_nonempty (s : string) : startsWith s "blob:" = true -> String.eqb s EmptyString = false.
Proof. by destruct s. Qed.

Ltac world_unfold :=
  unfold markProcessed, assignSrc, updateEl, queueRecord, addCall,
    emit, setDoc, setBlobs, setIo, setMo, setInflight in *.

Lemma queueRecord_cases (k : nat) (r : MutationRecord) (w : World) :
  queueRecord k r w = w
  \/ (moConnected w = true /\ queueRecord k r w = setMo true (moQueue w ++ r :: nil) w).
Proof.
  unfold queueRecord. destruct (moConnected w); simpl; [|by left].
  destruct (inDocument w k); auto.
Qed.

Lemma queueRecord_fields (k : nat) (r : MutationRecord) (w : World) :
  doc (queueRecord k r w) = doc w /\ log (queueRecord k r w) = log w
  /\ inflight (queueRecord k r w) = inflight w
  /\ nextCall (queueRecord k r w) = nextCall w
  /\ ioTargets (queueRecord k r w) = ioTargets w
  /\ revoked (queueRecord k r w) = revoked w
  /\ nextBlob (queueRecord k r w) = nextBlob w
  /\ moConnected (queueRecord k r w) = moConnected w
  /\ body (queueRecord k r w) = body w.
Proof.
  destruct (queueRecord_cases k r w) as [-> | [Hmo ->]]; repeat split; try reflexivity.
  simpl. by rewrite Hmo.
Qed.

(** The state after [process] installed a baked source. *)
Lemma installBaked_spec (w : World) (i : nat) (img : Element) (url : string) :
  doc w !! i = Some img ->
  doc (installBaked w i url)
  = alter (fun e => markProcessedEl (withWmUrl (Some url)
             (withRequest url (currentSrc e) false (naturalWidth e) (naturalHeight e) e)))
      i (doc w)
  /\ log (installBaked w i url)
     = (Marked i :: List.map Revoked (releasedBy img) ++ Installed i url :: log w)%list
  /\ revoked (installBaked w i url) = (releasedBy img ++ revoked w)%list
  /\ inflight (installBaked w i url) = inflight w
  /\ nextCall (installBaked w i url) = nextCall w
  /\ ioTargets (installBaked w i url) = ioTargets w
  /\ moConnected (installBaked w i url) = moConnected w
  /\ nextBlob (installBaked w i url) = nextBlob w
  /\ body (installBaked w i url) = body w.
Proof.
  intros Hi. unfold installBaked, assignSrc, releasedBy. rewrite Hi.
  set (f := fun e => withRequest url (currentSrc e) false (naturalWidth e) (naturalHeight e) e).
  assert (Hdoc : forall w0 : World,
            doc w0 = alter markProcessedEl i (alter (withWmUrl (Some url)) i (alter f i (doc w))) ->
            doc w0 = alter (fun e => markProcessedEl (withWmUrl (Some url) (f e))) i (doc w)).
  { intros w0 ->. by rewrite !alter_alter_eq. }
  destruct (queueRecord_cases i (AttrSrc i) (updateEl i f w)) as [-> | [Hmo ->]];
    (destruct (wmUrl (dataset img)) as [p|]; [destruct (negb _ && _)|]);
    (split; [apply Hdoc; reflexivity|repeat split; (reflexivity || (symmetry; exact Hmo))]).
Qed.

Lemma installBaked_doc (w : World) (i : nat) (url : string) :
  doc (installBaked w i url)
  = alter (fun e => markProcessedEl (withWmUrl (Some url)
             (withRequest url (currentSrc e) false (naturalWidth e) (naturalHeight e) e)))
      i (doc w)
  /\ body (installBaked w i url) = body w.
Proof.
  unfold installBaked, assignSrc.
  set (f := fun e => withRequest url (currentSrc e) false (naturalWidth e) (naturalHeight e) e).
  assert (Hdoc : forall w0 : World,
            doc w0 = alter markProcessedEl i (alter (withWmUrl (Some url)) i (alter f i (doc w))) ->
            doc w0 = alter (fun e => markProcessedEl (withWmUrl (Some url) (f e))) i (doc w)).
  { intros w0 ->. by rewrite !alter_alter_eq. }
  destruct (queueRecord_cases i (AttrSrc i) (updateEl i f w)) as [-> | [Hmo ->]];
    (destruct (match doc w !! i with Some img => wmUrl (dataset img) | None => None end)
       as [p|]; [destruct (negb _ && _)|]);
    (split; [apply Hdoc; reflexivity|reflexivity]).
Qed.

Lemma settle_success (w : World) (i : nat) (url : string) :
  String.eqb url EmptyString = false -> settle w i (inr url) = installBaked w i url.
Proof. intros H. unfold settle, processSettle. by rewrite H. Qed.

(** C5: when an element holding a previously assigned handle [prev] is
    rebaked successfully, the new handle is installed as the displayed
    source first and [prev] is released afterwards; the handle released
    is never the one displayed after the step; and a [prev] that is not
    a blob-type handle is not released at all. A blob-type [prev] was
    issued by an earlier [URL.createObjectURL]. *)
Theorem C5_handle_released_after_install
    (w : World) (i : nat) (img : Element) (prev : string) (r : ExportResult)
    (Himg : doc w !! i = Some img)
    (Hprev : wmUrl (dataset img) = Some prev)
    (Hissued : startsWith prev "blob:" = true ->
               exists k, (k < nextBlob w)%nat /\ prev = blobUrl k)
    (Hok : r <> BlobNull None) :
  let w' := bakeExported w i r in
  exists url img',
    doc w' !! i = Some img' /\ src img' = url /\ wmUrl (dataset img') = Some url
    /\ alreadyProcessed img' = true
    /\ if startsWith prev "blob:"
       then log w' = Marked i :: Revoked prev :: Installed i url :: log w
            /\ revoked w' = prev :: revoked w
            /\ prev <> url
       else log w' = Marked i :: Installed i url :: log w
            /\ revoked w' = revoked w.
Proof.
  intros w'.
  assert (Hgen : forall w0 url,
            doc w0 !! i = Some img -> log w0 = log w -> revoked w0 = revoked w ->
            String.eqb url EmptyString = false ->
            (startsWith prev "blob:" = true -> prev <> url) ->
            exists url' img',
              doc (settle w0 i (inr url)) !! i = Some img' /\ src img' = url'
              /\ wmUrl (dataset img') = Some url'
              /\ alreadyProcessed img' = true
              /\ if startsWith prev "blob:"
                 then log (settle w0 i (inr url))
                      = Marked i :: Revoked prev :: Installed i url' :: log w
                      /\ revoked (settle w0 i (inr url)) = prev :: revoked w
                      /\ prev <> url'
                 else log (settle w0 i (inr url)) = Marked i :: Installed i url' :: log w
                      /\ revoked (settle w0 i (inr url)) = revoked w).
  { intros w0 url Hi0 Hlog Hrev Hne Hfresh.
    rewrite settle_success by done.
    destruct (installBaked_spec w0 i img url Hi0) as (Hd & Hl & Hr & _).
    exists url. eexists.
    split; [by rewrite Hd, lookup_alter_eq, Hi0|].
    split; [reflexivity|]. split; [reflexivity|]. split; [reflexivity|].
    rewrite Hl, Hr. unfold releasedBy. rewrite Hprev, Hlog, Hrev.
    destruct (startsWith prev "blob:") eqn:Hb.
    - rewrite (startsWith_nonempty _ Hb). simpl. auto.
    - rewrite andb_false_r. simpl. auto. }
  subst w'. destruct r as [|[payload|]]; [| |done]; unfold bakeExported.
  - apply Hgen; try done.
    intros Hb Heq. destruct (Hissued Hb) as (k & Hk & ->).
    apply blobUrl_inj in Heq. lia.
  - apply Hgen; try done.
    intros Hb Heq. subst prev. by rewrite startsWith_dataUrl in Hb.
Qed.

Lemma C5_handle_released_after_install_witness :
  exists url img',
    doc (bakeExported rebakeWorld 2 BlobReady) !! 2 = Some img'
    /\ src img' = url /\ wmUrl (dataset img') = Some url
    /\ alreadyProcessed img' = true
    /\ log (bakeExported rebakeWorld 2 BlobReady)
       = Marked 2 :: Revoked "blob:0" :: Installed 2 url :: log rebakeWorld
    /\ revoked (bakeExported rebakeWorld 2 BlobReady) = "blob:0" :: revoked rebakeWorld
    /\ "blob:0" <> url.
Proof.
  assert (Himg : exists img, doc rebakeWorld !! 2 = Some img
                             /\ wmUrl (dataset img) = Some "blob:0")
    by (eexists; split; reflexivity).
  destruct Himg as (img & Himg & Hprev).
  refine (C5_handle_released_after_install rebakeWorld 2 img "blob:0" BlobReady
            Himg Hprev _ _).
  - intros _. exists 0. split; [|reflexivity]. vm_compute. lia.
  - discriminate.
Defined.

(** ** Processing step *)

Lemma withPosition_same (e : Element) : withPosition (position e) e = e.
Proof. by destruct e. Qed.

Lemma restyled_refl (e : Element) : restyled e e.
Proof. exists (position e). by rewrite withPosition_same. Qed.

Lemma restyled_positioned (e : Element) : restyled e (positioned e).
Proof.
  unfold positioned. destruct (String.eqb _ _); [by eexists|apply restyled_refl].
Qed.

(** [setOverlay] leaves every existing element in place, up to the
    position of the host. *)
Lemma setOverlayDoc_frame (d : Doc) (i j : nat) (e : Element) :
  d !! j = Some e -> exists e', (setOverlayDoc d i).1 !! j = Some e' /\ restyled e e'.
Proof.
  intros Hj. unfold setOverlayDoc.
  destruct (d !! i) as [img|]; [|eauto using restyled_refl].
  destruct (resolveHost d i img) as [h|]; [|eauto using restyled_refl].
  destruct (d !! h) as [host|] eqn:Hh; [|eauto using restyled_refl].
  case_bool_decide; [|eauto using restyled_refl]. simpl.
  set (d1 := <[h := positioned host]> d).
  assert (Hd1 : exists e', d1 !! j = Some e' /\ restyled e e').
  { subst d1. destruct (decide (j = h)) as [->|Hne].
    - rewrite lookup_insert_eq. assert (e = host) as -> by congruence.
      eauto using restyled_positioned.
    - rewrite lookup_insert_ne by done. eauto using restyled_refl. }
  destruct Hd1 as (e' & He' & Hre).
  assert (fresh (dom d1) <> j).
  { intros Heq. apply (is_fresh (dom d1)). rewrite Heq. apply elem_of_dom. eauto. }
  rewrite lookup_insert_ne by done. eauto.
Qed.

Lemma setOverlay_fields (w : World) (i : nat) :
  log (setOverlay w i) = log w /\ inflight (setOverlay w i) = inflight w
  /\ nextCall (setOverlay w i) = nextCall w
  /\ ioTargets (setOverlay w i) = ioTargets w /\ revoked (setOverlay w i) = revoked w
  /\ nextBlob (setOverlay w i) = nextBlob w
  /\ moConnected (setOverlay w i) = moConnected w /\ body (setOverlay w i) = body w.
Proof.
  unfold setOverlay. destruct (setOverlayDoc (doc w) i) as [d [[h o]|]]; [|done].
  destruct (queueRecord_fields h (ChildList (o :: nil)) (setDoc d w))
    as (_ & -> & -> & -> & -> & -> & -> & -> & ->).
  repeat split; reflexivity.
Qed.

(** The state after the overlay path of [process]. *)
Lemma fallback_spec (w : World) (i : nat) (img : Element) :
  doc w !! i = Some img ->
  let w' := fallback w i in
  log w' = Marked i :: OverlayCall i :: log w
  /\ (exists img', doc w' !! i = Some (markProcessedEl img') /\ restyled img img')
  /\ (forall j ej, j <> i -> doc w !! j = Some ej ->
        exists ej', doc w' !! j = Some ej' /\ restyled ej ej')
  /\ inflight w' = inflight w /\ nextCall w' = nextCall w
  /\ ioTargets w' = ioTargets w /\ revoked w' = revoked w
  /\ nextBlob w' = nextBlob w /\ moConnected w' = moConnected w /\ body w' = body w.
Proof.
  intros Hi w'. subst w'. unfold fallback.
  set (w0 := emit (OverlayCall i) w).
  destruct (setOverlay_fields w0 i) as (Hl & Hf & Hn & Hio & Hr & Hb & Hm & Hbody).
  assert (Hdoc : doc (markProcessed (setOverlay w0 i) i)
                 = alter markProcessedEl i (setOverlayDoc (doc w) i).1).
  { unfold markProcessed, updateEl. simpl. by rewrite setOverlay_doc. }
  split; [unfold markProcessed; simpl; by rewrite Hl|].
  split.
  { destruct (setOverlayDoc_frame (doc w) i i img Hi) as (img' & Hi' & Hre).
    exists img'. by rewrite Hdoc, lookup_alter_eq, Hi'. }
  split.
  { intros j ej Hne Hj. rewrite Hdoc, lookup_alter_ne by done.
    by apply setOverlayDoc_frame. }
  unfold markProcessed, updateEl. simpl. by rewrite Hf, Hn, Hio, Hr, Hb, Hm, Hbody.
Qed.

(** Each failure of the pipeline reaches the [catch] of [process]. *)
Lemma BakeFailure_step (env : Env) (w w0 : World) (ev : Event) (i : nat) (e : BakeError) :
  BakeFailure env w ev i e w0 -> step env w ev = worldOf (processSettle w0 i (inl e)).
Proof.
  destruct 1 as [i t Hw|i nw nh t Hw [img Hi] Hz|i t nw nh url rest Ht
                 |i t nw nh url rest Ht [img Hi] Hc|i t nw nh url rest img Ht Hi Hc Hx
                 |i t rest Ht]; simpl.
  - unfold fireLoad. simpl. by rewrite Hw.
  - unfold fireLoad. simpl. rewrite Hw. simpl. unfold bakeLoaded. simpl.
    rewrite lookup_alter_eq, Hi. simpl.
    by destruct Hz as [-> | ->]; simpl; rewrite ?orb_true_r.
  - unfold takeCall. by rewrite Ht.
  - unfold takeCall. rewrite Ht. unfold bakeProbed. simpl. by rewrite Hi, Hc.
  - unfold takeCall. rewrite Ht. unfold bakeProbed. simpl. rewrite Hi, Hc. simpl.
    destruct (displayedSize img nw nh) as [dw dh]. simpl. by rewrite Hx.
  - unfold takeCall. by rewrite Ht.
Qed.

(** ** Teardown *)

Lemma inb_cutAt (b x : nat) (l : list nat) : inb b (cutAt x l) = true -> inb b l = true.
Proof.
  unfold inb. induction l as [|y l IH]; simpl; [done|].
  destruct (x =? y)%nat; simpl.
  - rewrite orb_false_r. intros ->. done.
  - destruct (b =? y)%nat; [done|]. simpl. exact IH.
Qed.

Lemma removeEl_lookup (d : Doc) (x k : nat) (e' : Element) :
  removeEl d x !! k = Some e' ->
  exists e, d !! k = Some e /\ dataset e' = dataset e
            /\ (k = x -> ancestors e' = nil)
            /\ (forall b, inb b (ancestors e') = true -> inb b (ancestors e) = true).
Proof.
  unfold removeEl. intros H.
  destruct (decide (k = x)) as [->|Hne].
  - rewrite lookup_alter_eq, lookup_fmap in H.
    destruct (d !! x) as [e|]; [|done]. simpl in H. injection H as <-.
    exists e. repeat split; [by destruct (inb x (ancestors e))|done].
  - rewrite lookup_alter_ne, lookup_fmap in H by done.
    destruct (d !! k) as [e|]; [|done]. simpl in H. injection H as <-.
    exists e. destruct (inb x (ancestors e)); repeat split; try done.
    simpl. intros b. apply inb_cutAt.
Qed.

Lemma removeAll_no_overlay (b : nat) (l : list nat) (d : Doc) :
  (forall k e, d !! k = Some e -> isOverlay e = true -> inb b (ancestors e) = true -> In k l) ->
  forall k e, fold_left removeEl l d !! k = Some e -> isOverlay e = true ->
              inb b (ancestors e) = true -> False.
Proof.
  revert d. induction l as [|x l IH]; intros d Hall k e Hk Hov Hb; simpl in *.
  - eauto.
  - eapply (IH (removeEl d x)); [|exact Hk|exact Hov|exact Hb].
    intros k' e' Hk' Hov' Hb'.
    destruct (removeEl_lookup _ _ _ _ Hk') as (e0 & He0 & Hds & Hx & Hanc).
    assert (Hin : x = k' \/ In k' l).
    { apply (Hall k' e0 He0); [|by apply Hanc].
      unfold isOverlay in *. by rewrite <- Hds. }
    destruct Hin as [<-|Hin]; [|done].
    rewrite (Hx eq_refl) in Hb'. done.
Qed.

Lemma documentOverlays_In (w : World) (k : nat) (e : Element) :
  doc w !! k = Some e -> isOverlay e = true -> belowBody w e = true ->
  In k (documentOverlays w).
Proof.
  intros Hk Hov Hb. unfold documentOverlays.
  apply in_map_iff. exists (k, e). split; [done|].
  apply filter_In. split.
  - apply list_elem_of_In, elem_of_map_to_list. done.
  - simpl. by rewrite Hov, Hb.
Qed.

Lemma teardown_spec (w : World) :
  tornDown (teardown w)
  /\ (forall k, ~ overlayAttached (teardown w) k)
  /\ inflight (teardown w) = inflight w
  /\ log (teardown w) = log w.
Proof.
  split; [by repeat split|]. split; [|done].
  intros k (e & Hk & Hov & Hb).
  unfold teardown in Hk. simpl in Hk. unfold belowBody in Hb. simpl in Hb.
  eapply (removeAll_no_overlay (body w)); [|exact Hk|exact Hov|exact Hb].
  intros k' e' Hk' Hov' Hb'. by eapply (documentOverlays_In w).
Qed.

Lemma obsSame_refl (w : World) : obsSame w w.
Proof. by repeat split. Qed.

Lemma obsSame_trans (w1 w2 w3 : World) : obsSame w1 w2 -> obsSame w2 w3 -> obsSame w1 w3.
Proof.
  intros (H1 & H2 & H3) (H4 & H5 & H6). repeat split; [congruence|congruence|].
  intros H. rewrite H6, H3; [done|done|congruence].
Qed.

Lemma obsSame_tornDown (w w' : World) : obsSame w w' -> tornDown w -> tornDown w'.
Proof.
  intros (H1 & H2 & H3) (H4 & H5 & H6). repeat split; [congruence|congruence|].
  rewrite H3; done.
Qed.

Ltac obs_basic :=
  unfold obsSame; world_unfold; simpl;
  repeat (case_match; simpl); repeat split; simpl; try done; try congruence.

Lemma obsSame_queueRecord w k r : obsSame w (queueRecord k r w).
Proof.
  unfold obsSame, queueRecord. destruct (moConnected w) eqn:E; simpl; [|done].
  destruct (inDocument w k); simpl; repeat split; try done.
Qed.

Lemma obsSame_updateEl w i f : obsSame w (updateEl i f w).
Proof. obs_basic. Qed.

Lemma obsSame_emit w e : obsSame w (emit e w).
Proof. obs_basic. Qed.

Lemma obsSame_addCall w t : obsSame w (addCall t w).
Proof. obs_basic. Qed.

Lemma obsSame_setBlobs w n r : obsSame w (setBlobs n r w).
Proof. obs_basic. Qed.

Lemma obsSame_setDoc w d : obsSame w (setDoc d w).
Proof. obs_basic. Qed.

Lemma obsSame_setInflight w l n : obsSame w (setInflight l n w).
Proof. obs_basic. Qed.

Lemma reported_no_target (w : World) (entries : list (nat * bool)) :
  ioTargets w = ∅ -> reported w entries = nil.
Proof.
  intros Hio. unfold reported. induction entries as [|e l IH]; [done|].
  simpl. rewrite bool_decide_eq_false_2; [exact IH|].
  rewrite Hio. apply not_elem_of_empty.
Qed.

Lemma obsSame_markProcessed w i : obsSame w (markProcessed w i).
Proof. obs_basic. Qed.

Lemma obsSame_assignSrc w i url : obsSame w (assignSrc w i url).
Proof.
  unfold assignSrc.
  eapply obsSame_trans; [apply (obsSame_updateEl w i)|apply obsSame_queueRecord].
Qed.

Lemma obsSame_setOverlay w i : obsSame w (setOverlay w i).
Proof.
  unfold setOverlay. destruct (setOverlayDoc (doc w) i) as [d [[h o]|]];
    [|apply obsSame_refl].
  eapply obsSame_trans; [apply obsSame_setDoc|apply obsSame_queueRecord].
Qed.

Lemma obsSame_installBaked w i url : obsSame w (installBaked w i url).
Proof.
  unfold installBaked.
  eapply obsSame_trans; [|apply obsSame_markProcessed].
  eapply obsSame_trans.
  { eapply obsSame_trans; [apply (obsSame_assignSrc w i url)|].
    eapply obsSame_trans; [apply obsSame_emit|]. apply obsSame_updateEl. }
  destruct (match doc w !! i with Some img => wmUrl (dataset img) | None => None end)
    as [p|]; [|apply obsSame_refl].
  destruct (_ && _); [|apply obsSame_refl].
  eapply obsSame_trans; [apply obsSame_setBlobs|apply obsSame_emit].
Qed.

Lemma obsSame_fallback w i : obsSame w (fallback w i).
Proof.
  unfold fallback.
  eapply obsSame_trans; [apply (obsSame_emit w (OverlayCall i))|].
  eapply obsSame_trans; [apply obsSame_setOverlay|apply obsSame_markProcessed].
Qed.

Lemma obsSame_settle w i r : obsSame w (settle w i r).
Proof.
  unfold settle, processSettle. destruct r as [e|url]; simpl.
  - apply obsSame_fallback.
  - destruct (negb _); simpl; [apply obsSame_installBaked|apply obsSame_fallback].
Qed.

Lemma obsSame_bakeLoaded w i : obsSame w (bakeLoaded w i).
Proof.
  unfold bakeLoaded. destruct (doc w !! i); [|apply obsSame_refl].
  destruct (_ || _)%N; [apply obsSame_settle|apply obsSame_addCall].
Qed.

Lemma obsSame_bakeProbed env w i nw nh url : obsSame w (bakeProbed env w i nw nh url).
Proof.
  unfold bakeProbed. destruct (doc w !! i) as [img|]; [|apply obsSame_refl].
  destruct (negb _); [apply obsSame_settle|].
  destruct (displayedSize img nw nh) as [dw dh].
  eapply obsSame_trans; [apply (obsSame_emit w)|].
  destruct (tainted env url); [apply obsSame_settle|apply obsSame_addCall].
Qed.

Lemma obsSame_bakeExported w i r : obsSame w (bakeExported w i r).
Proof.
  unfold bakeExported. destruct r as [|[payload|]]; try apply obsSame_settle.
  eapply obsSame_trans; [apply obsSame_setBlobs|apply obsSame_settle].
Qed.

Lemma obsSame_fold {A} (f : World -> A -> World) (l : list A) (w : World) :
  (forall w a, obsSame w (f w a)) -> obsSame w (fold_left f l w).
Proof.
  intros Hf. revert w. induction l as [|a l IH]; intros w; simpl; [apply obsSame_refl|].
  eapply obsSame_trans; [apply Hf|apply IH].
Qed.

Lemma obsSame_fireLoad w i k :
  (forall w, obsSame w (k w)) -> obsSame w (fireLoad w i k).
Proof.
  intros Hk. unfold fireLoad.
  eapply obsSame_trans; [apply obsSame_setInflight|apply obsSame_fold; intros; apply Hk].
Qed.

Lemma obsSame_takeCall w t : obsSame w (takeCall t w).2.
Proof.
  unfold takeCall. destruct (extractCall _ _) as [[k rest]|];
    [apply obsSame_setInflight|apply obsSame_refl].
Qed.

(** Once the observers are gone no event of the page brings them back:
    in particular not a bake that settles later. *)
Lemma tornDown_step (env : Env) (w : World) (ev : Event) :
  tornDown w -> tornDown (step env w ev).
Proof.
  intros Htd.
  destruct ev as [entries|i nw nh|i|t|t|t r| |i s|root nodes|]; simpl.
  - rewrite reported_no_target; [exact Htd|apply Htd].
  - eapply obsSame_tornDown; [|exact Htd].
    eapply obsSame_trans; [apply (obsSame_updateEl w i)|].
    apply obsSame_fireLoad. intros. apply obsSame_bakeLoaded.
  - eapply obsSame_tornDown; [|exact Htd].
    eapply obsSame_trans; [apply (obsSame_updateEl w i)|].
    apply obsSame_fireLoad. intros. apply obsSame_settle.
  - pose proof (obsSame_takeCall w t) as Hobs.
    destruct (takeCall t w) as [[[j|j nw nh url|j]|] w1]; try done. simpl in Hobs.
    eapply obsSame_tornDown; [|exact Htd].
    eapply obsSame_trans; [exact Hobs|apply obsSame_bakeProbed].
  - pose proof (obsSame_takeCall w t) as Hobs.
    destruct (takeCall t w) as [[[j|j nw nh url|j]|] w1]; try done. simpl in Hobs.
    eapply obsSame_tornDown; [|exact Htd].
    eapply obsSame_trans; [exact Hobs|apply obsSame_settle].
  - pose proof (obsSame_takeCall w t) as Hobs.
    destruct (takeCall t w) as [[[j|j nw nh url|j]|] w1]; try done. simpl in Hobs.
    eapply obsSame_tornDown; [|exact Htd].
    eapply obsSame_trans; [exact Hobs|apply obsSame_bakeExported].
  - destruct Htd as (? & Hmo & ?). by rewrite Hmo.
  - eapply obsSame_tornDown; [apply obsSame_assignSrc|exact Htd].
  - eapply obsSame_tornDown; [|exact Htd].
    eapply obsSame_trans; [apply obsSame_setDoc|apply obsSame_queueRecord].
  - apply teardown_spec.
Qed.

Lemma tornDown_run (env : Env) (evs : list Event) (w : World) :
  tornDown w -> tornDown (run env w evs).
Proof.
  unfold run. revert w. induction evs as [|ev evs IH]; intros w Htd; [done|].
  simpl. apply IH. by apply tornDown_step.
Qed.

Lemma installBaked_no_new_overlay (w : World) (i : nat) (url : string) (k : nat) :
  overlayAttached (installBaked w i url) k -> overlayAttached w k.
Proof.
  intros (e' & Hk & Hov & Hb).
  destruct (installBaked_doc w i url) as (Hd & Hbody).
  unfold belowBody in Hb. rewrite Hd in Hk. rewrite Hbody in Hb.
  destruct (decide (k = i)) as [->|Hne].
  - rewrite lookup_alter_eq in Hk. apply fmap_Some in Hk as (e & He & ->).
    exists e. by repeat split.
  - rewrite lookup_alter_ne in Hk by done. by exists e'.
Qed.

(** C2, as stated, fails: a bake whose anonymous copy is refused after
    teardown attaches an overlay node to the torn-down document. *)
Lemma C2_overlay_attached_after_teardown :
  ~ (forall (env : Env) (w : World) (t i : nat) (nw nh : N) (url : string)
            (rest : list (nat * Call)),
        extractCall t (inflight w) = Some (AwaitProbe i nw nh url, rest) ->
        forall k, ~ overlayAttached (step env (teardown w) (ProbeFail t)) k).
Proof.
  intros H.
  apply (H sampleEnv probingWorld 0 2 200%N 200%N "https://cdn.example/a.jpg" nil eq_refl 3).
  eexists. split; [reflexivity|]. split; reflexivity.
Qed.

(** C2, amended: teardown cancels all visibility and mutation
    observation and removes every overlay node attached to the document,
    in any state, and leaves the bakes in flight running. Whatever
    happens afterwards, no observer is registered again and no call of
    [process] throws. A bake that resolves afterwards attaches no
    overlay node; a bake that rejects afterwards still runs the overlay
    fallback, which may attach one. *)
Theorem C2_teardown_with_bake_in_flight
    (env : Env) (w : World) (t : nat) (call : Call)
    (Hflight : In (t, call) (inflight w)) :
  let w1 := teardown w in
  tornDown w1
  /\ (forall k, ~ overlayAttached w1 k)
  /\ In (t, call) (inflight w1)
  /\ (forall evs, tornDown (run env w1 evs))
  /\ (forall w2 j r, exists w', processSettle w2 j r = Returned w')
  /\ (forall w2 t' j rest r k,
        extractCall t' (inflight w2) = Some (AwaitExport j, rest) ->
        r <> BlobNull None ->
        overlayAttached (step env w2 (Exported t' r)) k -> overlayAttached w2 k)
  /\ (forall w2 ev j e w0,
        BakeFailure env w2 ev j e w0 -> step env w2 ev = fallback w0 j).
Proof.
  intros w1. destruct (teardown_spec w) as (Htd & Hov & Hfl & _).
  split; [exact Htd|]. split; [exact Hov|].
  split; [subst w1; by rewrite Hfl|].
  split; [intros evs; by apply tornDown_run|].
  split.
  { intros w2 j [e|url]; simpl; [eauto|]. destruct (negb _); eauto. }
  split.
  - intros w2 t' j rest r k Ht Hr. simpl. unfold takeCall. rewrite Ht.
    destruct r as [|[payload|]]; [| |done]; unfold bakeExported;
      rewrite settle_success by done; intros Hatt;
      apply installBaked_no_new_overlay in Hatt; exact Hatt.
  - intros w2 ev j e w0 Hfail. by rewrite (BakeFailure_step _ _ _ _ _ _ Hfail).
Qed.

Lemma C2_teardown_with_bake_in_flight_witness :
  let w1 := teardown probingWorld in
  tornDown w1
  /\ (forall k, ~ overlayAttached w1 k)
  /\ In (0, AwaitProbe 2 200 200 "https://cdn.example/a.jpg") (inflight w1)
  /\ (forall evs, tornDown (run sampleEnv w1 evs))
  /\ (forall w2 j r, exists w', processSettle w2 j r = Returned w')
  /\ (forall w2 t' j rest r k,
        extractCall t' (inflight w2) = Some (AwaitExport j, rest) ->
        r <> BlobNull None ->
        overlayAttached (step sampleEnv w2 (Exported t' r)) k -> overlayAttached w2 k)
  /\ (forall w2 ev j e w0,
        BakeFailure sampleEnv w2 ev j e w0 -> step sampleEnv w2 ev = fallback w0 j).
Proof.
  apply (C2_teardown_with_bake_in_flight sampleEnv probingWorld 0
           (AwaitProbe 2 200 200 "https://cdn.example/a.jpg")).
  left. reflexivity.
Defined.

(** ** A loader that never settles *)

Section Pending.
Variable i : nat.

Lemma keeps_refl w : keeps i w w.
Proof. repeat split; eauto. Qed.

Lemma keeps_trans w1 w2 w3 : keeps i w1 w2 -> keeps i w2 w3 -> keeps i w1 w3.
Proof.
  intros (A1 & A2 & A3 & A4) (B1 & B2 & B3 & B4). repeat split.
  - intros e He Hs. destruct (A1 e He Hs) as (e' & He' & Hs'). eauto.
  - intros t call Hin. destruct (B2 t call Hin) as [H|H]; eauto.
  - eauto.
  - congruence.
Qed.

Lemma stuck_restyled e e' : restyled e e' -> stuck e -> stuck e'.
Proof. intros [p ->]. by destruct e. Qed.

(** A change of the document alone. *)
Lemma keeps_setDoc w d :
  (forall e, doc w !! i = Some e -> stuck e -> exists e', d !! i = Some e' /\ stuck e') ->
  keeps i w (setDoc d w).
Proof. intros H. repeat split; eauto. Qed.

Lemma keeps_updateEl w j f :
  (j = i -> forall e, stuck e -> stuck (f e)) -> keeps i w (updateEl j f w).
Proof.
  intros Hf. apply keeps_setDoc. intros e He Hs.
  destruct (decide (j = i)) as [->|Hne].
  - rewrite lookup_alter_eq, He. simpl. eauto.
  - rewrite lookup_alter_ne by done. eauto.
Qed.

Lemma keeps_queueRecord w k r : keeps i w (queueRecord k r w).
Proof. unfold queueRecord. destruct (_ && _); repeat split; eauto. Qed.

Lemma keeps_setIo w s : keeps i w (setIo s w).
Proof. repeat split; eauto. Qed.

Lemma keeps_setMo w c q : keeps i w (setMo c q w).
Proof. repeat split; eauto. Qed.

Lemma keeps_setBlobs w n r : keeps i w (setBlobs n r w).
Proof. repeat split; eauto. Qed.

Lemma keeps_emit w e : aboutImage i e = false -> keeps i w (emit e w).
Proof. intros H. repeat split; eauto. simpl. unfold effectsOn. simpl. by rewrite H. Qed.

Lemma keeps_addCall w call :
  callImage call <> i \/ call = AwaitLoaded i -> keeps i w (addCall call w).
Proof.
  intros H. repeat split; eauto; simpl.
  - intros t call' Hin. apply in_app_or in Hin as [Hin|[Heq|[]]]; [by left|].
    injection Heq as <- <-. by right.
  - intros t Hin. apply in_or_app. by left.
Qed.

Lemma eqb_ne (j : nat) : j <> i -> (j =? i)%nat = false.
Proof. intros H. by apply Nat.eqb_neq. Qed.

Lemma keeps_setOverlay w j : keeps i w (setOverlay w j).
Proof.
  unfold setOverlay.
  destruct (setOverlayDoc (doc w) j) as [d [[h o]|]] eqn:E; [|apply keeps_refl].
  eapply keeps_trans; [|apply keeps_queueRecord].
  apply keeps_setDoc. intros e He Hs.
  destruct (setOverlayDoc_frame (doc w) j i e He) as (e' & He' & Hre).
  rewrite E in He'. eauto using stuck_restyled.
Qed.

Lemma keeps_markProcessed w j : j <> i -> keeps i w (markProcessed w j).
Proof.
  intros Hne. unfold markProcessed.
  eapply keeps_trans; [|apply keeps_emit; simpl; by apply eqb_ne].
  apply keeps_updateEl. by intros ?.
Qed.

Lemma stuck_withRequest e s cur nw nh : stuck e -> stuck (withRequest s cur false nw nh e).
Proof. intros [_ H]. split; [done|]. by destruct e. Qed.

Lemma keeps_assignSrc w j url : keeps i w (assignSrc w j url).
Proof.
  unfold assignSrc. eapply keeps_trans; [|apply keeps_queueRecord].
  apply keeps_updateEl. intros _ e. apply stuck_withRequest.
Qed.

Lemma keeps_installBaked w j url : j <> i -> keeps i w (installBaked w j url).
Proof.
  intros Hne. unfold installBaked.
  eapply keeps_trans; [|by apply keeps_markProcessed].
  assert (Hk : keeps i w (updateEl j (withWmUrl (Some url))
                            (emit (Installed j url) (assignSrc w j url)))).
  { eapply keeps_trans; [|apply keeps_updateEl; by intros ?].
    eapply keeps_trans; [|apply keeps_emit; simpl; by apply eqb_ne].
    apply keeps_assignSrc. }
  destruct (match doc w !! j with Some img => wmUrl (dataset img) | None => None end)
    as [p|]; [|exact Hk].
  destruct (_ && _); [|exact Hk].
  eapply keeps_trans; [exact Hk|].
  eapply keeps_trans; [|by apply keeps_emit]. apply keeps_setBlobs.
Qed.

Lemma keeps_fallback w j : j <> i -> keeps i w (fallback w j).
Proof.
  intros Hne. unfold fallback.
  eapply keeps_trans; [apply (keeps_emit w (OverlayCall j)); simpl; by apply eqb_ne|].
  eapply keeps_trans; [apply keeps_setOverlay|by apply keeps_markProcessed].
Qed.

Lemma keeps_settle w j r : j <> i -> keeps i w (settle w j r).
Proof.
  intros Hne. unfold settle, processSettle. destruct r as [e|url]; simpl.
  - by apply keeps_fallback.
  - destruct (negb _); simpl; [by apply keeps_installBaked|by apply keeps_fallback].
Qed.

Lemma keeps_bakeLoaded w j : j <> i -> keeps i w (bakeLoaded w j).
Proof.
  intros Hne. unfold bakeLoaded. destruct (doc w !! j); [|apply keeps_refl].
  destruct (_ || _)%N; [by apply keeps_settle|apply keeps_addCall; by left].
Qed.

Lemma keeps_bakeProbed env w j nw nh url : j <> i -> keeps i w (bakeProbed env w j nw nh url).
Proof.
  intros Hne. unfold bakeProbed. destruct (doc w !! j) as [img|]; [|apply keeps_refl].
  destruct (negb _); [by apply keeps_settle|].
  destruct (displayedSize img nw nh) as [dw dh].
  eapply keeps_trans; [apply (keeps_emit w (Drawn j url (layout (metrics env) nw nh dw dh)));
                       simpl; by apply eqb_ne|].
  destruct (tainted env url); [by apply keeps_settle|apply keeps_addCall; by left].
Qed.

Lemma keeps_bakeExported w j r : j <> i -> keeps i w (bakeExported w j r).
Proof.
  intros Hne. unfold bakeExported. destruct r as [|[payload|]]; try by apply keeps_settle.
  eapply keeps_trans; [apply keeps_setBlobs|by apply keeps_settle].
Qed.
End Pending.

Section PendingSteps.
Variable i : nat.

Lemma pend_keeps w w' : pend i w -> keeps i w w' -> pend i w'.
Proof.
  intros ((e & He & Hs) & Hcalls) (K1 & K2 & _ & _). split.
  - eauto.
  - intros t call Hin Himg. destruct (K2 t call Hin) as [H|[H|H]]; eauto. done.
Qed.

Lemma keeps_fold {A} (f : World -> A -> World) (l : list A) (w : World) :
  (forall w a, keeps i w (f w a)) -> keeps i w (fold_left f l w).
Proof.
  intros Hf. revert w. induction l as [|a l IH]; intros w; simpl; [apply keeps_refl|].
  eapply keeps_trans; [apply Hf|apply IH].
Qed.

Lemma keeps_fold_pend {A} (f : World -> A -> World) (l : list A) (w : World) :
  (forall w a, pend i w -> keeps i w (f w a)) -> pend i w -> keeps i w (fold_left f l w).
Proof.
  intros Hf. revert w. induction l as [|a l IH]; intros w Hp; simpl; [apply keeps_refl|].
  eapply keeps_trans; [by apply Hf|]. apply IH. eapply pend_keeps; eauto.
Qed.

Lemma keeps_processStart w k : pend i w -> keeps i w (processStart w k).
Proof.
  intros ((e & He & Hs) & _). unfold processStart.
  destruct (doc w !! k) as [img|] eqn:Hk; [|apply keeps_refl].
  destruct (_ || _); [apply keeps_refl|].
  destruct (decide (k = i)) as [->|Hne].
  - assert (img = e) as -> by congruence. destruct Hs as [-> _].
    apply keeps_addCall. by right.
  - destruct (ensureLoaded img); [by apply keeps_bakeLoaded|].
    apply keeps_addCall. by left.
Qed.

Lemma keeps_ioCallback w entries : pend i w -> keeps i w (ioCallback w entries).
Proof.
  unfold ioCallback. apply keeps_fold_pend. clear w. intros w [k b] Hp. simpl.
  destruct (_ && _); [|apply keeps_refl].
  eapply keeps_trans; [by apply keeps_processStart|apply keeps_setIo].
Qed.

Lemma keeps_fireLoad w j k :
  j <> i -> (forall w, keeps i w (k w)) -> keeps i w (fireLoad w j k).
Proof.
  intros Hne Hk. unfold fireLoad.
  eapply keeps_trans; [|apply keeps_fold; intros; apply Hk].
  repeat split; eauto; simpl.
  - intros t call Hin. apply filter_In in Hin as [Hin _]. by left.
  - intros t Hin. apply filter_In. split; [done|].
    unfold awaitsLoad. simpl. by rewrite (eqb_ne i j Hne).
Qed.

Lemma extractCall_split t l k rest :
  extractCall t l = Some (k, rest) ->
  exists l1 l2, l = (l1 ++ (t, k) :: l2)%list /\ rest = (l1 ++ l2)%list.
Proof.
  revert rest. induction l as [|[t' k'] l IH]; intros rest H; simpl in H; [done|].
  destruct (Nat.eqb_spec t' t) as [->|Hne].
  - injection H as <- <-. by exists nil, l.
  - destruct (extractCall t l) as [[k0 rest0]|]; [|done]. injection H as <- <-.
    destruct (IH rest0 eq_refl) as (l1 & l2 & -> & ->).
    by exists ((t', k') :: l1), l2.
Qed.

(** Taking a call that is past the loader out of the table. *)
Lemma keeps_takeCall w t k rest :
  extractCall t (inflight w) = Some (k, rest) ->
  (forall j, k <> AwaitLoaded j) ->
  keeps i w (setInflight rest (nextCall w) w).
Proof.
  intros Hex Hk. destruct (extractCall_split _ _ _ _ Hex) as (l1 & l2 & Hl & ->).
  repeat split; eauto; simpl; rewrite Hl.
  - intros t' call Hin. left. apply in_app_or in Hin as [Hin|Hin];
      apply in_or_app; [by left|right; by right].
  - intros t' Hin. apply in_app_or in Hin as [Hin|[Heq|Hin]];
      [apply in_or_app; by left| |apply in_or_app; by right].
    injection Heq as _ ->. by destruct (Hk i).
Qed.

Lemma taken_not_i w t k rest :
  pend i w -> extractCall t (inflight w) = Some (k, rest) ->
  (forall j, k <> AwaitLoaded j) -> callImage k <> i.
Proof.
  intros (_ & Hcalls) Hex Hk Himg.
  destruct (extractCall_split _ _ _ _ Hex) as (l1 & l2 & Hl & _).
  apply (Hk i). apply (Hcalls t); [|done]. rewrite Hl. apply in_or_app. right. by left.
Qed.

Lemma stuck_withProcessed e : stuck e -> stuck (withProcessed (Some EmptyString) e).
Proof. intros [H _]. split; [|done]. by destruct e. Qed.

Lemma keeps_observeIfEligible w k : keeps i w (observeIfEligible w k).
Proof. unfold observeIfEligible. destruct (eligibleAt _ _); [apply keeps_setIo|apply keeps_refl]. Qed.

Lemma keeps_moRecord w m : keeps i w (moRecord w m).
Proof.
  destruct m as [added|target]; simpl.
  - apply keeps_fold. clear w. intros w n. unfold moAdded.
    destruct (doc w !! n) as [e|]; [|apply keeps_refl].
    destruct (isImage e); [apply keeps_observeIfEligible|].
    apply keeps_fold. intros. apply keeps_observeIfEligible.
  - destruct (matchesAt (doc w) isImage target); [|apply keeps_refl].
    assert (Hk : keeps i w (updateEl target (withProcessed (Some EmptyString)) w)).
    { apply keeps_updateEl. intros _ e. apply stuck_withProcessed. }
    destruct (matchesAt _ _ target); [|done].
    eapply keeps_trans; [exact Hk|apply keeps_setIo].
Qed.

Lemma insertNodes_lookup d nodes k e :
  d !! k = Some e -> insertNodes d nodes !! k = Some e.
Proof.
  unfold insertNodes. revert d. induction nodes as [|[k' e'] nodes IH]; intros d Hk; [done|].
  simpl. apply IH. destruct (d !! k') eqn:Hk'; [done|].
  rewrite lookup_insert_ne; [done|]. intros ->. congruence.
Qed.

Lemma removeEl_stuck d x e :
  d !! i = Some e -> stuck e -> exists e', removeEl d x !! i = Some e' /\ stuck e'.
Proof.
  intros He Hs. unfold removeEl.
  assert (Hf : exists e', ((fun e => if inb x (ancestors e)
                             then withAncestors (cutAt x (ancestors e)) e else e) <$> d) !! i
                          = Some e' /\ stuck e').
  { rewrite lookup_fmap, He. simpl. eexists; split; [done|].
    destruct (inb x (ancestors e)); [|done]. by destruct e. }
  destruct Hf as (e' & He' & Hs').
  destruct (decide (x = i)) as [->|Hne].
  - rewrite lookup_alter_eq, He'. simpl. eexists; split; [done|]. by destruct e'.
  - rewrite lookup_alter_ne by done. eauto.
Qed.

Lemma keeps_teardown w : keeps i w (teardown w).
Proof.
  unfold teardown.
  eapply keeps_trans; [apply (keeps_setIo i w ∅)|].
  eapply keeps_trans; [apply (keeps_setMo i _ false nil)|].
  apply keeps_setDoc. simpl.
  generalize (documentOverlays (setMo false nil (setIo ∅ w))). intros l.
  generalize (doc w). induction l as [|x l IH]; intros d e He Hs; simpl; [eauto|].
  destruct (removeEl_stuck d x e He Hs) as (e' & He' & Hs'). eauto.
Qed.

(** Every event other than a [load] or [error] of element [i] keeps
    its pending loaders pending. *)
Lemma keeps_step env w ev :
  pend i w -> silentFor i ev = true -> keeps i w (step env w ev).
Proof.
  intros Hp Hsil.
  destruct ev as [entries|j nw nh|j|t|t|t r| |j s|root nodes|]; simpl in *.
  - by apply keeps_ioCallback.
  - assert (j <> i) by (intros ->; by rewrite Nat.eqb_refl in Hsil).
    eapply keeps_trans; [apply keeps_updateEl; by intros ?|].
    apply keeps_fireLoad; [done|]. intros. by apply keeps_bakeLoaded.
  - assert (j <> i) by (intros ->; by rewrite Nat.eqb_refl in Hsil).
    eapply keeps_trans; [apply keeps_updateEl; by intros ?|].
    apply keeps_fireLoad; [done|]. intros. by apply keeps_settle.
  - unfold takeCall. destruct (extractCall t (inflight w)) as [[k rest]|] eqn:Hex;
      [|apply keeps_refl].
    destruct k as [j|j nw nh url|j]; try apply keeps_refl.
    eapply keeps_trans; [by eapply keeps_takeCall|].
    apply keeps_bakeProbed. by apply (taken_not_i w t _ rest Hp Hex).
  - unfold takeCall. destruct (extractCall t (inflight w)) as [[k rest]|] eqn:Hex;
      [|apply keeps_refl].
    destruct k as [j|j nw nh url|j]; try apply keeps_refl.
    eapply keeps_trans; [by eapply keeps_takeCall|].
    apply keeps_settle. by apply (taken_not_i w t _ rest Hp Hex).
  - unfold takeCall. destruct (extractCall t (inflight w)) as [[k rest]|] eqn:Hex;
      [|apply keeps_refl].
    destruct k as [j|j nw nh url|j]; try apply keeps_refl.
    eapply keeps_trans; [by eapply keeps_takeCall|].
    apply keeps_bakeExported. by apply (taken_not_i w t _ rest Hp Hex).
  - destruct (moConnected w); [|apply keeps_refl].
    eapply keeps_trans; [apply (keeps_setMo i w true nil)|].
    unfold moCallback. apply keeps_fold. intros. apply keeps_moRecord.
  - apply keeps_assignSrc.
  - eapply keeps_trans; [|apply keeps_queueRecord].
    apply keeps_setDoc. intros e He Hs. eauto using insertNodes_lookup.
  - apply keeps_teardown.
Qed.

Lemma keeps_run env evs w :
  pend i w -> forallb (silentFor i) evs = true -> keeps i w (run env w evs).
Proof.
  unfold run. revert w. induction evs as [|ev evs IH]; intros w Hp Hsil; simpl in *;
    [apply keeps_refl|].
  apply andb_true_iff in Hsil as [Hev Hevs].
  pose proof (keeps_step env w ev Hp Hev) as Hk.
  eapply keeps_trans; [exact Hk|]. apply IH; [|done]. eapply pend_keeps; eauto.
Qed.
End PendingSteps.

(** C10: when [process] reaches the loader for an element whose request
    has completed without image data ([complete] with zero natural
    width), [ensureLoaded] only registers its listeners. As long as the
    element fires no further [load] or [error], whatever else happens on
    the page, the call stays suspended in the loader, the element is not
    marked processed, and no overlay call, drawing or install is made
    for it. No other call for the element is past the loader. *)
Theorem C10_failed_image_loader_never_settles
    (env : Env) (w : World) (i : nat) (img : Element) (evs : list Event)
    (Himg : doc w !! i = Some img)
    (Hcomplete : complete img = true) (Hzero : naturalWidth img = 0%N)
    (Hnew : alreadyProcessed img = false) (Hin : exclude img = false)
    (Hothers : forall t call, In (t, call) (inflight w) ->
                              callImage call = i -> call = AwaitLoaded i)
    (Hsilent : forallb (silentFor i) evs = true) :
  let w1 := processStart w i in
  let w2 := run env w1 evs in
  ensureLoaded img = false
  /\ inflight w1 = (inflight w ++ (nextCall w, AwaitLoaded i) :: nil)%list
  /\ In (nextCall w, AwaitLoaded i) (inflight w2)
  /\ (exists img2, doc w2 !! i = Some img2 /\ alreadyProcessed img2 = false)
  /\ effectsOn i (log w2) = effectsOn i (log w).
Proof.
  intros w1 w2.
  assert (Hwait : ensureLoaded img = false).
  { unfold ensureLoaded. by rewrite Hcomplete, Hzero. }
  assert (Hw1 : w1 = addCall (AwaitLoaded i) w).
  { subst w1. unfold processStart. by rewrite Himg, Hnew, Hin, Hwait. }
  assert (Hp : pend i w1).
  { rewrite Hw1. split.
    - exists img. by split.
    - simpl. intros t call Hin' Hti.
      apply in_app_or in Hin' as [Hin'|[Heq|[]]]; [by eapply Hothers|].
      by injection Heq as _ <-. }
  destruct (keeps_run i env evs w1 Hp Hsilent) as (K1 & _ & K3 & K4).
  split; [exact Hwait|]. split; [by rewrite Hw1|]. split; [|split].
  - apply K3. rewrite Hw1. simpl. apply in_or_app. right. by left.
  - destruct (K1 img) as (img2 & Himg2 & _ & Hnp); [by rewrite Hw1|by split|]. eauto.
  - fold w2 in K4. rewrite K4, Hw1. reflexivity.
Qed.

Lemma C10_failed_image_loader_never_settles_witness :
  let evs := Deliver :: Intersect ((2, true) :: nil)
             :: HostInsert 7 ((7, heroImg) :: nil) :: Unmount :: nil in
  let w1 := processStart brokenWorld 2 in
  let w2 := run sampleEnv w1 evs in
  ensureLoaded brokenImg = false
  /\ inflight w1 = (inflight brokenWorld ++ (nextCall brokenWorld, AwaitLoaded 2) :: nil)%list
  /\ In (nextCall brokenWorld, AwaitLoaded 2) (inflight w2)
  /\ (exists img2, doc w2 !! 2 = Some img2 /\ alreadyProcessed img2 = false)
  /\ effectsOn 2 (log w2) = effectsOn 2 (log brokenWorld).
Proof.
  apply (C10_failed_image_loader_never_settles sampleEnv brokenWorld 2 brokenImg);
    try reflexivity.
  intros t call [].
Defined.

(** C1 fails on the code. After the first bake the element is marked
    processed and the record of the engine's own [src] write is queued;
    its delivery resets the element to unprocessed and observes it
    again, and the next visibility report bakes a second time, drawing
    the watermark over the output of the first bake, although the page
    never changed the source. *)
Theorem C1_own_write_restarts_processing :
  let w1 := run sampleEnv heroWorld firstBake in
  let w2 := step sampleEnv w1 Deliver in
  let w3 := run sampleEnv w2 secondBake in
  (field (fun e => wmProcessed (dataset e)) w1 2 = Some (Some "1")
   /\ field src w1 2 = Some "blob:0"
   /\ field (fun e => wmUrl (dataset e)) w1 2 = Some (Some "blob:0")
   /\ moQueue w1 = AttrSrc 2 :: nil /\ 2 ∉ ioTargets w1)
  /\ (field (fun e => wmProcessed (dataset e)) w2 2 = Some (Some EmptyString)
      /\ 2 ∈ ioTargets w2)
  /\ (exists l1 l2,
        log w3 = Marked 2 :: Revoked "blob:0" :: Installed 2 "blob:1"
                 :: Drawn 2 "blob:0" l2
                 :: Marked 2 :: Installed 2 "blob:0"
                 :: Drawn 2 "https://cdn.example/a.jpg" l1 :: nil).
Proof.
  split; [|split].
  - repeat split; try reflexivity. by vm_compute.
  - split; [reflexivity|]. by vm_compute.
  - eexists _, _. vm_compute. reflexivity.
Qed.

(** The defect behind C1 does not depend on the sample page: for every
    eligible image in the observed document, the record queued by the
    engine's own write makes the observer callback reset the element and
    observe it again. *)
Lemma own_write_resets (env : Env) (w : World) (i : nat) (img : Element) (url : string) :
  doc w !! i = Some img -> isImage img = true -> exclude img = false ->
  moConnected w = true -> inDocument w i = true -> moQueue w = nil ->
  String.eqb url EmptyString = false ->
  field (fun e => wmProcessed (dataset e)) (settle w i (inr url)) i = Some (Some "1")
  /\ moQueue (settle w i (inr url)) = AttrSrc i :: nil
  /\ field (fun e => wmProcessed (dataset e)) (step env (settle w i (inr url)) Deliver) i
     = Some (Some EmptyString)
  /\ i ∈ ioTargets (step env (settle w i (inr url)) Deliver).
Proof.
  intros Hi Himg Hex Hmo Hin Hq Hurl. rewrite settle_success by done.
  destruct (installBaked_spec w i img url Hi) as (Hd & _ & _ & _ & _ & _ & Hmo' & _).
  set (f := fun e => withRequest url (currentSrc e) false (naturalWidth e) (naturalHeight e) e).
  assert (Hqueue : moQueue (installBaked w i url) = AttrSrc i :: nil).
  { unfold installBaked, assignSrc. fold f.
    assert (Hrec : queueRecord i (AttrSrc i) (updateEl i f w)
                   = setMo true (AttrSrc i :: nil) (updateEl i f w)).
    { unfold queueRecord. simpl. rewrite Hmo, Hq. simpl.
      replace (inDocument (updateEl i f w) i) with true; [done|].
      symmetry. revert Hin. unfold inDocument, matchesAt. simpl.
      rewrite lookup_alter_eq, Hi. simpl. done. }
    rewrite Hrec, Hi.
    destruct (wmUrl (dataset img)) as [p|]; [destruct (negb _ && _)|]; reflexivity. }
  assert (Hlook : doc (installBaked w i url) !! i
                  = Some (markProcessedEl (withWmUrl (Some url) (f img)))).
  { by rewrite Hd, lookup_alter_eq, Hi. }
  clear Hd. remember (installBaked w i url) as w1 eqn:Hw1. clear Hw1.
  split; [unfold field; by rewrite Hlook|]. split; [exact Hqueue|].
  assert (Hstep : step env w1 Deliver
                  = observe i (updateEl i (withProcessed (Some EmptyString)) (setMo true nil w1))).
  { simpl. rewrite Hmo', Hmo, Hqueue. simpl.
    unfold matchesAt. simpl. rewrite Hlook. simpl. rewrite Himg.
    rewrite lookup_alter_eq, Hlook. simpl.
    replace (exclude _) with (exclude img) by (by destruct img).
    by rewrite Hex. }
  rewrite Hstep. split.
  - unfold field. simpl. rewrite lookup_alter_eq, Hlook. reflexivity.
  - simpl. set_solver.
Qed.

(** * Further properties of the hook *)

(** ** Measuring and placing the text *)








(** X4: the overlay grid has [max(3, round(dispW / 160))] columns and
    [max(2, round(dispH / 120))] rows, hence at least six tiles; all
    tiles are equal: they show the watermark text at one common font
    size, which is 12px or more. *)
Theorem tileGrid_shape (dispW dispH : Q) :
  List.length (tileGrid dispW dispH)
  = (Z.to_nat (Z.max 2 (jsRound (dispH / 120))) * Z.to_nat (Z.max 3 (jsRound (dispW / 160))))%nat
  /\ (6 <= List.length (tileGrid dispW dispH))%nat
  /\ Forall (fun tile : string * Z => tile.1 = TEXT /\ (12 <= tile.2)%Z) (tileGrid dispW dispH)
  /\ exists px : Z,
       (12 <= px)%Z
       /\ Forall (fun tile : string * Z => tile = (TEXT, px)) (tileGrid dispW dispH).
Proof.
  unfold tileGrid.
  set (nx := Z.to_nat (Z.max 3 (jsRound (dispW / 160)))).
  set (ny := Z.to_nat (Z.max 2 (jsRound (dispH / 120)))).
  set (tile := (TEXT, Z.max 12 (jsRound (Qmin dispW dispH * 0.06)))).
  assert (Hlen : forall n, List.length (concat (repeat (repeat tile nx) n)) = (n * nx)%nat).
  { induction n as [|n IH]; simpl; [done|]. by rewrite length_app, repeat_length, IH. }
  split; [apply Hlen|]. split.
  - rewrite Hlen. assert (3 <= nx)%nat by (subst nx; lia).
    assert (2 <= ny)%nat by (subst ny; lia). nia.
  - assert (Hall : Forall (fun t : string * Z => t = tile) (concat (repeat (repeat tile nx) ny))).
    { apply Forall_forall. intros x Hx.
      apply list_elem_of_In, in_concat in Hx as (l & Hl & Hx).
      apply repeat_spec in Hl as ->. by apply repeat_spec in Hx as ->. }
    split.
    + eapply Forall_impl; [exact Hall|]. intros x ->. subst tile. simpl. split; [done|lia].
    + exists (Z.max 12 (jsRound (Qmin dispW dispH * 0.06))). split; [lia|exact Hall].
Qed.

(** ** The overlay and its host *)

Lemma find_split (p : nat -> bool) (l : list nat) (h : nat) :
  List.find p l = Some h ->
  p h = true
  /\ exists pre post, l = (pre ++ h :: post)%list /\ forall k, In k pre -> p k = false.
Proof.
  induction l as [|x l IH]; simpl; [done|].
  destruct (p x) eqn:Hx.
  - intros [= ->]. split; [done|]. exists nil, l. split; [done|]. intros k [].
  - intros Hf. destruct (IH Hf) as (Hh & pre & post & -> & Hpre).
    split; [done|]. exists (x :: pre), post. split; [done|].
    intros k [<-|Hk]; auto.
Qed.

(** X5: the host of the overlay is the nearest element, starting with
    the image itself, that matches the container selector: it matches,
    and nothing nearer on the ancestor chain does. When nothing on the
    chain matches, the host is the parent element. *)
Theorem resolveHost_nearest (d : Doc) (i : nat) (img : Element) :
  (forall h, closest d i img = Some h ->
     resolveHost d i img = Some h
     /\ matchesAt d matchesHost h = true
     /\ exists nearer further,
          i :: ancestors img = (nearer ++ h :: further)%list
          /\ forall k, In k nearer -> matchesAt d matchesHost k = false)
  /\ ((forall k, In k (i :: ancestors img) -> matchesAt d matchesHost k = false) ->
      resolveHost d i img = parentElement img).
Proof.
  split.
  - intros h Hc. unfold resolveHost. rewrite Hc. split; [done|].
    unfold closest in Hc. by apply find_split.
  - intros Hnone. unfold resolveHost, closest.
    destruct (List.find _ _) as [h|] eqn:Hf; [|done].
    apply find_some in Hf as [Hin Hm]. rewrite (Hnone h Hin) in Hm. done.
Qed.

Lemma resolveHost_nearest_witness :
  (resolveHost galleryDoc 3 (sampleImg (1 :: 0 :: nil) 300 200 150 100 true
                               "https://cdn.example/c.jpg") = Some 1
   /\ matchesAt galleryDoc matchesHost 1 = true)
  /\ resolveHost galleryDoc 5 (sampleImg nil 200 200 150 150 true "https://cdn.example/d.jpg")
     = None.
Proof.
  split.
  - destruct (resolveHost_nearest galleryDoc 3
                (sampleImg (1 :: 0 :: nil) 300 200 150 100 true "https://cdn.example/c.jpg"))
      as (Hnear & _).
    destruct (Hnear 1) as (Hr & Hm & _); [by vm_compute|]. by split.
  - destruct (resolveHost_nearest galleryDoc 5
                (sampleImg nil 200 200 150 150 true "https://cdn.example/d.jpg")) as (_ & Hpar).
    rewrite Hpar; [reflexivity|]. intros k [<-|[]]. by vm_compute.
Defined.

Lemma positioned_not_static (host : Element) :
  position (positioned host) <> "static"
  /\ (position host <> "static" -> positioned host = host).
Proof.
  unfold positioned. destruct (String.eqb_spec (position host) "static") as [He|Hne].
  - split; [discriminate|]. intros Hn. by destruct Hn.
  - by split.
Qed.

(** X6: applied to an image whose host holds no overlay yet,
    [setOverlay] creates a new element: a child of the host, marked as
    overlay, not an image, filled with the tile grid computed from the
    displayed size of the image. The host ends up with a non-static
    position (an already positioned host is left as it is), and the
    effect log, the handles and the suspended calls are untouched. *)
Theorem setOverlay_attaches (w : World) (i h : nat) (img host : Element)
    (Himg : doc w !! i = Some img)
    (Hres : resolveHost (doc w) i img = Some h)
    (Hhost : doc w !! h = Some host)
    (Hnone : overlaysUnder (doc w) h = ∅) :
  exists o ov host',
    doc w !! o = None
    /\ doc (setOverlay w i) !! o = Some ov
    /\ parentElement ov = Some h /\ isOverlay ov = true /\ isImage ov = false
    /\ overlayTiles ov
       = tileGrid (Qmax 1 (orElseQ (rectWidth img) (ofN (width img))))
                  (Qmax 1 (orElseQ (rectHeight img) (ofN (height img))))
    /\ doc (setOverlay w i) !! h = Some host'
    /\ position host' <> "static"
    /\ (position host <> "static" -> host' = host)
    /\ log (setOverlay w i) = log w /\ revoked (setOverlay w i) = revoked w
    /\ inflight (setOverlay w i) = inflight w.
Proof.
  destruct (setOverlay_fields w i) as (Hl & Hf & _ & _ & Hr & _).
  rewrite setOverlay_doc, Hl, Hf, Hr.
  unfold setOverlayDoc. rewrite Himg, Hres, Hhost, bool_decide_eq_true_2 by done.
  cbn [fst].
  set (d1 := <[h := positioned host]> (doc w)).
  assert (Hfresh : fresh (dom d1) ∉ dom d1) by apply is_fresh.
  assert (Hne : fresh (dom d1) <> h).
  { intros Heq. apply Hfresh. rewrite Heq. subst d1. rewrite dom_insert_L. set_solver. }
  destruct (positioned_not_static host) as (Hpos & Hsame).
  eexists (fresh (dom d1)), _, (positioned host).
  split.
  { apply not_elem_of_dom in Hfresh. subst d1. by rewrite lookup_insert_ne in Hfresh. }
  split; [apply lookup_insert_eq|].
  split; [reflexivity|]. split; [reflexivity|]. split; [reflexivity|].
  split; [reflexivity|].
  split; [rewrite lookup_insert_ne by done; apply lookup_insert_eq|].
  by repeat split.
Qed.

Lemma setOverlay_attaches_witness :
  exists o ov host',
    doc galleryWorld !! o = None
    /\ doc (setOverlay galleryWorld 2) !! o = Some ov
    /\ parentElement ov = Some 1 /\ isOverlay ov = true /\ isImage ov = false
    /\ overlayTiles ov
       = tileGrid (Qmax 1 (orElseQ (rectWidth heroImg) (ofN (width heroImg))))
                  (Qmax 1 (orElseQ (rectHeight heroImg) (ofN (height heroImg))))
    /\ doc (setOverlay galleryWorld 2) !! 1 = Some host'
    /\ position host' <> "static"
    /\ (position (sampleDiv (0 :: nil) ("property-hero" :: nil)) <> "static" ->
        host' = sampleDiv (0 :: nil) ("property-hero" :: nil))
    /\ log (setOverlay galleryWorld 2) = log galleryWorld
    /\ revoked (setOverlay galleryWorld 2) = revoked galleryWorld
    /\ inflight (setOverlay galleryWorld 2) = inflight galleryWorld.
Proof.
  apply (setOverlay_attaches galleryWorld 2 1 heroImg
           (sampleDiv (0 :: nil) ("property-hero" :: nil)));
    [reflexivity|reflexivity|reflexivity|by vm_compute].
Defined.

(** ** Discovery: [observeExisting] and the observer callbacks *)

Lemma setIo_eta (w : World) : setIo (ioTargets w) w = w.
Proof. by destruct w. Qed.

Lemma fold_observe (l : list nat) (w : World) :
  exists S : gset nat,
    fold_left observeIfEligible l w = setIo S w
    /\ forall k, k ∈ S <-> k ∈ ioTargets w \/ (In k l /\ eligibleAt (doc w) k = true).
Proof.
  revert w. induction l as [|a l IH]; intros w; simpl.
  - exists (ioTargets w). split; [by rewrite setIo_eta|].
    intros k. split; [auto|]. by intros [H|[[] _]].
  - assert (Hstep : observeIfEligible w a = if eligibleAt (doc w) a then observe a w else w)
      by reflexivity.
    rewrite Hstep. destruct (eligibleAt (doc w) a) eqn:He.
    + destruct (IH (observe a w)) as (S & Hf & HS). exists S.
      split; [by rewrite Hf|]. intros k. rewrite HS. simpl.
      rewrite elem_of_union, elem_of_singleton.
      split.
      * intros [[->|H]|[H1 H2]]; auto.
      * intros [H|[[<-|H1] H2]]; auto.
    + destruct (IH w) as (S & Hf & HS). exists S.
      split; [done|]. intros k. rewrite HS.
      split.
      * intros [H|[H1 H2]]; auto.
      * intros [H|[[<-|H1] H2]]; [auto|congruence|auto].
Qed.

Lemma In_selected (p : nat * Element -> bool) (d : Doc) (k : nat) :
  In k (List.map fst (List.filter p (map_to_list d)))
  <-> exists e, d !! k = Some e /\ p (k, e) = true.
Proof.
  rewrite in_map_iff. split.
  - intros ([k' e] & Hk & Hin). simpl in Hk. subst k'.
    apply filter_In in Hin as [Hin Hp].
    apply list_elem_of_In, elem_of_map_to_list in Hin. by exists e.
  - intros (e & Hk & Hp). exists (k, e). split; [done|].
    apply filter_In. split; [|done].
    by apply list_elem_of_In, elem_of_map_to_list.
Qed.

Lemma eligibleAt_Some (d : Doc) (k : nat) :
  eligibleAt d k = true
  <-> exists e, d !! k = Some e /\ alreadyProcessed e = false /\ exclude e = false.
Proof.
  unfold eligibleAt, matchesAt. destruct (d !! k) as [e|].
  - rewrite andb_true_iff, !negb_true_iff. split.
    + intros [H1 H2]. by exists e.
    + by intros (e' & [= <-] & H1 & H2).
  - split; [done|]. by intros (e & H & _).
Qed.

Lemma mount_unfold (w : World) :
  exists S : gset nat,
    mount w = setMo true (moQueue w) (setIo S w)
    /\ forall k, k ∈ S <-> k ∈ ioTargets w
                          \/ (In k (scopedImages w) /\ eligibleAt (doc w) k = true).
Proof.
  unfold mount. destruct (fold_observe (scopedImages w) w) as (S & -> & HS). by exists S.
Qed.

(** X7: mounting adds to the targets of the IntersectionObserver
    exactly the images that match a scope selector, lie below
    [document.body], are not marked as processed and are not excluded;
    it connects the MutationObserver and changes nothing else. *)
Theorem mount_observes_eligible (w : World) :
  (forall k, k ∈ ioTargets (mount w)
     <-> k ∈ ioTargets w
         \/ exists e, doc w !! k = Some e /\ inScope (doc w) e = true
                      /\ belowBody w e = true
                      /\ alreadyProcessed e = false /\ exclude e = false)
  /\ moConnected (mount w) = true /\ moQueue (mount w) = moQueue w
  /\ doc (mount w) = doc w /\ inflight (mount w) = inflight w
  /\ log (mount w) = log w /\ revoked (mount w) = revoked w.
Proof.
  destruct (mount_unfold w) as (S & -> & HS).
  split; [|done].
  intros k. simpl. rewrite HS. unfold scopedImages. rewrite In_selected, eligibleAt_Some.
  split.
  - intros [H|((e & He & Hp) & (e' & He' & H1 & H2))]; [auto|]. right.
    assert (e' = e) as -> by congruence. simpl in Hp. apply andb_true_iff in Hp as [Hs Hb].
    by exists e.
  - intros [H|(e & He & Hs & Hb & H1 & H2)]; [auto|]. right. split.
    + exists e. split; [done|]. simpl. by rewrite Hs, Hb.
    + by exists e.
Qed.

(** X8: mounting twice is mounting once: the second scan finds only
    targets the first has registered, and the observer is already
    connected. *)
Theorem mount_idempotent (w : World) : mount (mount w) = mount w.
Proof.
  destruct (mount_unfold w) as (S & -> & HS).
  destruct (mount_unfold (setMo true (moQueue w) (setIo S w))) as (S' & -> & HS').
  assert (HSS : S' = S).
  { apply set_eq. intros k. rewrite HS'. split; [|auto].
    intros [H|H]; [done|]. apply HS. right. exact H. }
  rewrite HSS. reflexivity.
Qed.

Lemma obsSame_processStart (w : World) (i : nat) : obsSame w (processStart w i).
Proof.
  unfold processStart. destruct (doc w !! i) as [img|]; [|apply obsSame_refl].
  destruct (alreadyProcessed img || exclude img); [apply obsSame_refl|].
  destruct (ensureLoaded img); [apply obsSame_bakeLoaded|apply obsSame_addCall].
Qed.

Lemma ioEntry_targets (w : World) (e : nat * bool) :
  ioTargets (ioEntry w e) ⊆ ioTargets w.
Proof.
  destruct e as [k b]. unfold ioEntry.
  destruct (b && matchesAt (doc w) isImage k); [|done].
  unfold unobserve. simpl.
  replace (ioTargets (processStart w k)) with (ioTargets w)
    by (symmetry; apply (obsSame_processStart w k)).
  intros x Hx. by apply elem_of_difference in Hx as [Hx _].
Qed.

Lemma ioCallback_targets (entries : list (nat * bool)) (w : World) :
  ioTargets (ioCallback w entries) ⊆ ioTargets w.
Proof.
  unfold ioCallback. revert w. induction entries as [|e l IH]; intros w; simpl; [done|].
  etrans; [apply IH|apply ioEntry_targets].
Qed.

Lemma isImage_setOverlayDoc (d : Doc) (i k : nat) :
  matchesAt (setOverlayDoc d i).1 isImage k = matchesAt d isImage k.
Proof.
  unfold setOverlayDoc.
  destruct (d !! i) as [img|]; [|done].
  destruct (resolveHost d i img) as [h|]; [|done].
  destruct (d !! h) as [host|] eqn:Hh; [|done].
  destruct (bool_decide (overlaysUnder d h = ∅)); [|done].
  cbn [fst]. set (d1 := <[h := positioned host]> d).
  assert (Hfresh : d1 !! fresh (dom d1) = None) by apply not_elem_of_dom, is_fresh.
  unfold matchesAt. destruct (decide (k = fresh (dom d1))) as [->|Hko].
  - rewrite lookup_insert_eq. simpl.
    subst d1. destruct (decide (fresh (dom (<[h := positioned host]> d)) = h)) as [Heq|Hne].
    + rewrite Heq, lookup_insert_eq in Hfresh. done.
    + rewrite lookup_insert_ne in Hfresh by done. by rewrite Hfresh.
  - rewrite lookup_insert_ne by done. subst d1.
    destruct (decide (k = h)) as [->|Hkh].
    + rewrite lookup_insert_eq, Hh. unfold positioned. by destruct (String.eqb _ _).
    + by rewrite lookup_insert_ne.
Qed.

Lemma isImage_fallback (w : World) (i k : nat) :
  matchesAt (doc (fallback w i)) isImage k = matchesAt (doc w) isImage k.
Proof.
  assert (Hdoc : doc (fallback w i) = alter markProcessedEl i (setOverlayDoc (doc w) i).1).
  { unfold fallback, markProcessed, updateEl. simpl. by rewrite setOverlay_doc. }
  rewrite Hdoc, <- (isImage_setOverlayDoc (doc w) i k). unfold matchesAt.
  destruct (decide (k = i)) as [->|Hne].
  - rewrite lookup_alter_eq. by destruct ((setOverlayDoc (doc w) i).1 !! i).
  - by rewrite lookup_alter_ne.
Qed.

Lemma isImage_processStart (w : World) (i k : nat) :
  matchesAt (doc (processStart w i)) isImage k = matchesAt (doc w) isImage k.
Proof.
  unfold processStart. destruct (doc w !! i) as [img|]; [|done].
  destruct (alreadyProcessed img || exclude img); [done|].
  destruct (ensureLoaded img); [|done].
  unfold bakeLoaded. destruct (doc w !! i) as [img'|]; [|done].
  destruct ((naturalWidth img' =? 0) || (naturalHeight img' =? 0))%N; [|done].
  apply isImage_fallback.
Qed.

Lemma isImage_ioEntry (w : World) (e : nat * bool) (k : nat) :
  matchesAt (doc (ioEntry w e)) isImage k = matchesAt (doc w) isImage k.
Proof.
  destruct e as [j b]. unfold ioEntry.
  destruct (b && matchesAt (doc w) isImage j); [|done].
  apply isImage_processStart.
Qed.

Lemma ioCallback_unobserved (entries : list (nat * bool)) (w : World) (k : nat) :
  In (k, true) entries -> matchesAt (doc w) isImage k = true ->
  k ∉ ioTargets (ioCallback w entries).
Proof.
  revert w. induction entries as [|e l IH]; intros w Hin Him; [done|].
  change (ioCallback w (e :: l)) with (ioCallback (ioEntry w e) l).
  destruct Hin as [->|Hin].
  - intros Hk. apply ioCallback_targets in Hk. revert Hk.
    unfold ioEntry. rewrite Him. cbn [andb]. unfold unobserve. simpl.
    rewrite elem_of_difference, elem_of_singleton. intros [_ Hk]. by apply Hk.
  - apply IH; [done|]. by rewrite isImage_ioEntry.
Qed.

(** X9: what the IntersectionObserver callback does with a batch. It
    never adds a target, and every image with an intersecting entry in
    the batch is unobserved when the callback returns, so a later batch
    has no entry for it until it is observed again. The callback keeps
    no record of the calls it started: two intersecting entries for the
    same image in one batch start [process] twice, and for an image that
    is still loading both calls are left waiting in the loader. *)
Theorem ioCallback_unobserves (env : Env) (w : World) (entries : list (nat * bool)) :
  ioTargets (step env w (Intersect entries)) ⊆ ioTargets w
  /\ (forall k, In (k, true) entries -> k ∈ ioTargets w ->
        matchesAt (doc w) isImage k = true ->
        (k ∉ ioTargets (step env w (Intersect entries)))
        /\ forall b, step env (step env w (Intersect entries)) (Intersect ((k, b) :: nil))
                     = step env w (Intersect entries))
  /\ (forall k img, doc w !! k = Some img -> isImage img = true -> k ∈ ioTargets w ->
        alreadyProcessed img = false -> exclude img = false -> ensureLoaded img = false ->
        inflight (step env w (Intersect ((k, true) :: (k, true) :: nil)))
        = (inflight w ++ (nextCall w, AwaitLoaded k)
                         :: (S (nextCall w), AwaitLoaded k) :: nil)%list).
Proof.
  cbn [step]. split; [apply ioCallback_targets|]. split.
  - intros k Hin Hobs Him.
    assert (Hout : k ∉ ioTargets (ioCallback w (reported w entries))).
    { apply ioCallback_unobserved; [|done]. unfold reported. apply filter_In.
      split; [done|]. by apply bool_decide_eq_true_2. }
    split; [exact Hout|]. intros b.
    remember (ioCallback w (reported w entries)) as W eqn:EW. clear EW.
    unfold reported. cbn [List.filter fst]. by rewrite bool_decide_eq_false_2.
  - intros k img Hk Him Hobs Hp Hex Hl.
    assert (Hrep : reported w ((k, true) :: (k, true) :: nil)
                   = (k, true) :: (k, true) :: nil).
    { unfold reported. simpl. by rewrite bool_decide_eq_true_2. }
    rewrite Hrep. unfold ioCallback. cbn [fold_left].
    assert (Hstart : forall w', doc w' !! k = Some img ->
              ioEntry w' (k, true) = unobserve k (addCall (AwaitLoaded k) w')).
    { intros w' Hk'. unfold ioEntry, matchesAt. rewrite Hk', Him. cbn [andb].
      unfold processStart. by rewrite Hk', Hp, Hex, Hl. }
    rewrite (Hstart w Hk), (Hstart (unobserve k (addCall (AwaitLoaded k) w)) Hk).
    cbn. by rewrite <- app_assoc.
Qed.

Lemma ioCallback_unobserves_witness :
  (2 ∉ ioTargets (step sampleEnv pendingWorld (Intersect ((2, true) :: (2, true) :: nil))))
  /\ inflight (step sampleEnv pendingWorld (Intersect ((2, true) :: (2, true) :: nil)))
     = (0%nat, AwaitLoaded 2) :: (1%nat, AwaitLoaded 2) :: nil.
Proof.
  destruct (ioCallback_unobserves sampleEnv pendingWorld ((2, true) :: (2, true) :: nil))
    as (_ & Hun & Htwice).
  split.
  - apply (Hun 2); [by left|by vm_compute|reflexivity].
  - by apply (Htwice 2 pendingImg).
Defined.

(** X10: the [childList] branch of the MutationObserver. An inserted
    image is observed when it is neither processed nor excluded,
    whether or not it matches a scope selector; an inserted container
    contributes its descendants that match a scope selector and are
    neither processed nor excluded. *)
Theorem moAdded_observes (w : World) (n : nat) (e : Element) (Hn : doc w !! n = Some e) :
  (isImage e = true ->
   forall k, k ∈ ioTargets (moAdded w n)
     <-> k ∈ ioTargets w \/ (k = n /\ alreadyProcessed e = false /\ exclude e = false))
  /\ (isImage e = false ->
      forall k, k ∈ ioTargets (moAdded w n)
        <-> k ∈ ioTargets w
            \/ exists ek, doc w !! k = Some ek /\ inScope (doc w) ek = true
                          /\ inb n (ancestors ek) = true
                          /\ alreadyProcessed ek = false /\ exclude ek = false)
  /\ doc (moAdded w n) = doc w /\ log (moAdded w n) = log w
  /\ inflight (moAdded w n) = inflight w.
Proof.
  unfold moAdded. rewrite Hn. split; [|split].
  - intros Him k. rewrite Him. unfold observeIfEligible.
    destruct (eligibleAt (doc w) n) eqn:He.
    + apply eligibleAt_Some in He as (e' & He' & H1 & H2).
      assert (e' = e) as -> by congruence. simpl.
      rewrite elem_of_union, elem_of_singleton. split.
      * intros [->|H]; auto.
      * intros [H|[-> _]]; auto.
    + split; [auto|]. intros [H|(-> & H1 & H2)]; [done|].
      assert (eligibleAt (doc w) n = true) by (apply eligibleAt_Some; by exists e).
      congruence.
  - intros Him k. rewrite Him.
    destruct (fold_observe (scopedImagesUnder (doc w) n) w) as (S & -> & HS).
    simpl. rewrite HS. unfold scopedImagesUnder. rewrite In_selected, eligibleAt_Some.
    split.
    + intros [H|((ek & He & Hp) & (e' & He' & H1 & H2))]; [auto|]. right.
      assert (e' = ek) as -> by congruence. simpl in Hp.
      apply andb_true_iff in Hp as [Hs Hb]. by exists ek.
    + intros [H|(ek & He & Hs & Hb & H1 & H2)]; [auto|]. right. split.
      * exists ek. split; [done|]. simpl. by rewrite Hs, Hb.
      * by exists ek.
  - destruct (isImage e).
    + unfold observeIfEligible. by destruct (eligibleAt (doc w) n).
    + by destruct (fold_observe (scopedImagesUnder (doc w) n) w) as (S & -> & _).
Qed.

Lemma moAdded_observes_witness :
  5 ∈ ioTargets (moAdded (emptyWorld galleryDoc) 5)
  /\ inScope galleryDoc (sampleImg nil 200 200 150 150 true "https://cdn.example/d.jpg") = false.
Proof.
  destruct (moAdded_observes (emptyWorld galleryDoc) 5
              (sampleImg nil 200 200 150 150 true "https://cdn.example/d.jpg")) as (H & _).
  - reflexivity.
  - split; [|reflexivity]. apply H; [reflexivity|]. right. by repeat split.
Defined.

(** ** One call of [process] *)

Lemma settle_marks (w : World) (i : nat) (img : Element) (r : BakeError + string) :
  doc w !! i = Some img -> exists e, doc (settle w i r) !! i = Some (markProcessedEl e).
Proof.
  intros Hi.
  assert (Hfb : exists e, doc (fallback w i) !! i = Some (markProcessedEl e)).
  { pose proof (fallback_spec w i img Hi) as H. cbv zeta in H.
    destruct H as (_ & (img' & H & _) & _). by exists img'. }
  unfold settle, processSettle.
  destruct r as [err|url]; [exact Hfb|].
  destruct (negb (String.eqb url EmptyString)); [|exact Hfb].
  cbn [worldOf]. destruct (installBaked_spec w i img url Hi) as (Hd & _).
  rewrite Hd, lookup_alter_eq, Hi. by eexists.
Qed.

(** X11: in the state in which a call of [process] ends, whatever the
    outcome of the bake (install, rejection, empty URL), the image is
    marked as processed: a further call of [process] on it returns at
    its first line, and neither the scan of the document nor the
    [childList] branch observes it. The mark lasts until a record of a
    [src] change is delivered for the image. *)
Theorem settled_image_is_skipped (w : World) (i : nat) (img : Element) (r : BakeError + string)
    (Hi : doc w !! i = Some img) :
  processStart (settle w i r) i = settle w i r
  /\ eligibleAt (doc (settle w i r)) i = false
  /\ observeIfEligible (settle w i r) i = settle w i r.
Proof.
  destruct (settle_marks w i img r Hi) as (e & He).
  assert (Hel : eligibleAt (doc (settle w i r)) i = false).
  { unfold eligibleAt, matchesAt. by rewrite He. }
  split; [|split; [exact Hel|]].
  - unfold processStart. by rewrite He.
  - unfold observeIfEligible. by rewrite Hel.
Qed.

Lemma settled_image_is_skipped_witness :
  processStart (settle heroWorld 2 (inl CorsBlocked)) 2 = settle heroWorld 2 (inl CorsBlocked)
  /\ eligibleAt (doc (settle heroWorld 2 (inl CorsBlocked))) 2 = false
  /\ observeIfEligible (settle heroWorld 2 (inl CorsBlocked)) 2
     = settle heroWorld 2 (inl CorsBlocked).
Proof. apply (settled_image_is_skipped heroWorld 2 heroImg). reflexivity. Defined.

(** X12: the two outcomes of [process] exclude each other. A bake that
    resolves with a non-empty URL installs it and attaches no overlay;
    a bake that rejects, or resolves with the empty string, goes to the
    overlay fallback and leaves the source, the recorded handle and the
    issued object URLs as they were. *)
Theorem settle_exclusive (w : World) (i : nat) (img : Element) (r : BakeError + string)
    (Hi : doc w !! i = Some img) :
  match r with
  | inr url =>
      if String.eqb url EmptyString then overlayOutcome w (settle w i r) i img
      else installedOutcome w (settle w i r) i img url
  | inl _ => overlayOutcome w (settle w i r) i img
  end.
Proof.
  assert (Hfb : overlayOutcome w (fallback w i) i img).
  { pose proof (fallback_spec w i img Hi) as H. cbv zeta in H.
    destruct H as (Hl & (img' & Hd & (p & ->)) & _ & _ & _ & _ & Hr & Hn & _).
    unfold overlayOutcome, field. rewrite Hd. by repeat split. }
  destruct r as [err|url]; [exact Hfb|].
  unfold settle, processSettle.
  destruct (String.eqb url EmptyString); [exact Hfb|]. cbn [negb worldOf].
  destruct (installBaked_spec w i img url Hi) as (Hd & Hl & _).
  unfold installedOutcome, field. rewrite Hd, lookup_alter_eq, Hi.
  repeat split; [exact Hl|]. apply installBaked_no_new_overlay.
Qed.

Lemma settle_exclusive_witness :
  overlayOutcome heroWorld (settle heroWorld 2 (inr EmptyString)) 2 heroImg
  /\ installedOutcome heroWorld (settle heroWorld 2 (inr (blobUrl 0))) 2 heroImg (blobUrl 0).
Proof.
  split.
  - apply (settle_exclusive heroWorld 2 heroImg (inr EmptyString)). reflexivity.
  - apply (settle_exclusive heroWorld 2 heroImg (inr (blobUrl 0))). reflexivity.
Defined.

Lemma queueRecord_connected (k : nat) (r : MutationRecord) (w : World) :
  moConnected w = true -> inDocument w k = true ->
  queueRecord k r w = setMo true (moQueue w ++ r :: nil) w.
Proof. intros H1 H2. unfold queueRecord. by rewrite H1, H2. Qed.

(** X13: reprocessing after the page changes the source. With the
    observer connected and the image in the document, assigning [src]
    and delivering the record clears the processed marker (also on an
    excluded image, and keeping the recorded handle) and registers the
    image with the IntersectionObserver again unless it is excluded. *)
Theorem host_src_change_requeues (env : Env) (w : World) (i : nat) (img : Element) (s : string)
    (Hi : doc w !! i = Some img) (Himg : isImage img = true)
    (Hmo : moConnected w = true) (Hin : inDocument w i = true) (Hq : moQueue w = nil) :
  let w' := run env w (HostSetSrc i s :: Deliver :: nil) in
  doc w' !! i
  = Some (withProcessed (Some EmptyString)
            (withRequest s (currentSrc img) false (naturalWidth img) (naturalHeight img) img))
  /\ (exclude img = false -> ioTargets w' = {[i]} ∪ ioTargets w)
  /\ (exclude img = true -> ioTargets w' = ioTargets w)
  /\ moQueue w' = nil /\ log w' = log w /\ inflight w' = inflight w
  /\ revoked w' = revoked w.
Proof.
  set (f := fun e => withRequest s (currentSrc e) false (naturalWidth e) (naturalHeight e) e).
  assert (Hset : step env w (HostSetSrc i s) = setMo true (AttrSrc i :: nil) (updateEl i f w)).
  { cbn [step]. unfold assignSrc. fold f. rewrite queueRecord_connected.
    - cbn. by rewrite Hq.
    - exact Hmo.
    - revert Hin. unfold inDocument, matchesAt. simpl.
      rewrite lookup_alter_eq, Hi. simpl. done. }
  assert (Hlook : doc (updateEl i f w) !! i = Some (f img)).
  { simpl. by rewrite lookup_alter_eq, Hi. }
  cbv zeta. unfold run. cbn [fold_left]. rewrite Hset.
  remember (updateEl i f w) as w1 eqn:Hw1.
  assert (Hfields : ioTargets w1 = ioTargets w /\ log w1 = log w
                    /\ inflight w1 = inflight w /\ revoked w1 = revoked w)
    by (by subst w1).
  destruct Hfields as (Hio & Hlog & Hinf & Hrev). clear Hw1 Hset.
  assert (Hstep : step env (setMo true (AttrSrc i :: nil) w1) Deliver
                  = let w2 := updateEl i (withProcessed (Some EmptyString)) (setMo true nil w1) in
                    if negb (exclude img) then observe i w2 else w2).
  { simpl. unfold matchesAt. simpl. rewrite Hlook. simpl. rewrite Himg.
    rewrite lookup_alter_eq, Hlook. simpl.
    replace (exclude _) with (exclude img) by (by destruct img). done. }
  rewrite Hstep. cbv zeta.
  destruct (exclude img); cbn [negb]; simpl; rewrite lookup_alter_eq, Hlook; simpl;
    repeat split; try done; try congruence.
Qed.

Lemma host_src_change_requeues_witness :
  let w' := run sampleEnv heroWorld (HostSetSrc 2 "https://cdn.example/b.jpg" :: Deliver :: nil) in
  field (fun e => wmProcessed (dataset e)) w' 2 = Some (Some EmptyString)
  /\ 2 ∈ ioTargets w'.
Proof.
  destruct (host_src_change_requeues sampleEnv heroWorld 2 heroImg "https://cdn.example/b.jpg")
    as (Hd & Hobs & _); [reflexivity|reflexivity|reflexivity|reflexivity|reflexivity|].
  cbv zeta. split.
  - unfold field. by rewrite Hd.
  - rewrite (Hobs eq_refl). apply elem_of_union_l, elem_of_singleton. reflexivity.
Defined.

(** ** Cleanup *)

Lemma documentOverlays_nil (w : World) :
  (forall k, ~ overlayAttached w k) -> documentOverlays w = nil.
Proof.
  intros Hno. destruct (documentOverlays w) as [|k l] eqn:E; [done|].
  exfalso. assert (Hin : In k (documentOverlays w)) by (rewrite E; by left).
  unfold documentOverlays in Hin. apply In_selected in Hin as (e & He & Hp).
  cbv beta in Hp. cbn [snd] in Hp. apply andb_true_iff in Hp as [H1 H2].
  apply (Hno k). by exists e.
Qed.

(** X14: the cleanup is idempotent: run a second time it finds no
    observer to disconnect and no overlay to remove. *)
Theorem teardown_idempotent (w : World) : teardown (teardown w) = teardown w.
Proof.
  destruct (teardown_spec w) as (_ & Hno & _).
  assert (E : documentOverlays (setMo false nil (setIo ∅ (teardown w))) = nil).
  { apply documentOverlays_nil. intros k (e & H1 & H2 & H3). apply (Hno k). by exists e. }
  unfold teardown at 1. cbv zeta. rewrite E. reflexivity.
Qed.

Lemma withAncestors_twice (a b : list nat) (e : Element) :
  withAncestors a (withAncestors b e) = withAncestors a e.
Proof. reflexivity. Qed.

Lemma withAncestors_same (e : Element) : withAncestors (ancestors e) e = e.
Proof. by destruct e. Qed.

Lemma removeEl_keeps (d : Doc) (x k : nat) :
  (forall e, d !! k = Some e -> exists a, removeEl d x !! k = Some (withAncestors a e))
  /\ (d !! k = None -> removeEl d x !! k = None).
Proof.
  unfold removeEl. destruct (decide (k = x)) as [->|Hne].
  - rewrite lookup_alter_eq, lookup_fmap. split.
    + intros e ->. simpl. exists nil. by destruct (inb x (ancestors e)).
    + by intros ->.
  - rewrite lookup_alter_ne, lookup_fmap by done. split.
    + intros e ->. simpl. destruct (inb x (ancestors e)).
      * by eexists.
      * exists (ancestors e). by rewrite withAncestors_same.
    + by intros ->.
Qed.

Lemma removeAll_keeps (l : list nat) (d : Doc) (k : nat) :
  (forall e, d !! k = Some e ->
     exists a, fold_left removeEl l d !! k = Some (withAncestors a e))
  /\ (d !! k = None -> fold_left removeEl l d !! k = None).
Proof.
  revert d. induction l as [|x l IH]; intros d; simpl.
  - split; [|done]. intros e He. exists (ancestors e). by rewrite withAncestors_same.
  - destruct (removeEl_keeps d x k) as [Hs Hn]. destruct (IH (removeEl d x)) as [IHs IHn].
    split.
    + intros e He. destruct (Hs e He) as (a & Ha). destruct (IHs _ Ha) as (b & Hb).
      exists b. by rewrite Hb, withAncestors_twice.
    + intros He. auto.
Qed.

(** X15: the cleanup only detaches. Every element keeps its record up
    to its ancestor chain, so images stay marked as processed and keep
    their installed source and handle; no object URL is revoked and no
    suspended call is cancelled. Hence a later mount does not observe
    an image that was processed before the cleanup, although the
    overlays are gone. *)
Theorem teardown_keeps_marks (w : World) :
  (forall k e, doc w !! k = Some e ->
     exists a, doc (teardown w) !! k = Some (withAncestors a e))
  /\ (forall k, doc w !! k = None -> doc (teardown w) !! k = None)
  /\ revoked (teardown w) = revoked w /\ nextBlob (teardown w) = nextBlob w
  /\ inflight (teardown w) = inflight w
  /\ (forall k e, doc w !! k = Some e -> alreadyProcessed e = true ->
        k ∉ ioTargets (mount (teardown w)))
  /\ (forall k, ~ overlayAttached (mount (teardown w)) k).
Proof.
  assert (Hkeep : forall k e, doc w !! k = Some e ->
                    exists a, doc (teardown w) !! k = Some (withAncestors a e)).
  { intros k e He. unfold teardown. simpl.
    by apply (removeAll_keeps (documentOverlays (setMo false nil (setIo ∅ w))) (doc w) k). }
  split; [exact Hkeep|]. split.
  { intros k Hk. unfold teardown. simpl.
    by apply (removeAll_keeps (documentOverlays (setMo false nil (setIo ∅ w))) (doc w) k). }
  split; [done|]. split; [done|]. split; [done|].
  destruct (mount_unfold (teardown w)) as (S & Hm & HS). rewrite Hm. split.
  - intros k e He Hp Hin. simpl in Hin. apply HS in Hin as [Hin|[_ Hel]].
    + destruct (teardown_spec w) as ((Hio & _) & _). rewrite Hio in Hin.
      by apply not_elem_of_empty in Hin.
    + apply eligibleAt_Some in Hel as (e' & He' & Hp' & _).
      destruct (Hkeep k e He) as (a & Ha). rewrite Ha in He'. injection He' as <-.
      unfold alreadyProcessed in *. simpl in Hp'. congruence.
  - intros k (e & H1 & H2 & H3).
    destruct (teardown_spec w) as (_ & Hno & _). apply (Hno k). by exists e.
Qed.

Lemma teardown_keeps_marks_witness :
  (exists a, doc (teardown rebakeWorld) !! 1
             = Some (withAncestors a (sampleDiv (0 :: nil) ("property-hero" :: nil))))
  /\ doc (teardown rebakeWorld) !! 9 = None.
Proof.
  destruct (teardown_keeps_marks rebakeWorld) as (Hs & Hn & _).
  split; [apply Hs; by vm_compute|apply Hn; by vm_compute].
Defined.

(** ** The listeners of [ensureLoaded] *)


(** ** The pipeline from the viewport to the outcome *)

Lemma extractCall_last (t : nat) (c : Call) (l : list (nat * Call)) :
  (forall t' c', In (t', c') l -> t' <> t) ->
  extractCall t (l ++ (t, c) :: nil) = Some (c, l).
Proof.
  induction l as [|[t0 c0] l IH]; intros Hne; simpl.
  - by rewrite Nat.eqb_refl.
  - destruct (Nat.eqb_spec t0 t) as [->|_].
    + exfalso. apply (Hne t c0); [by left|done].
    + rewrite IH; [done|]. intros t' c' Hin. apply (Hne t' c'). by right.
Qed.

Lemma callsFresh_other (w : World) (n : nat) :
  callsFresh w -> (nextCall w <= n)%nat ->
  forall t' c', In (t', c') (inflight w) -> t' <> n.
Proof. intros Hf Hn t' c' Hin. specialize (Hf t' c' Hin). lia. Qed.

(** An eligible, loaded, observed image enters the viewport: [process]
    runs up to the request for the anonymous copy. *)
Lemma intersect_starts_bake (env : Env) (w : World) (i : nat) (img : Element) :
  doc w !! i = Some img -> isImage img = true -> i ∈ ioTargets w ->
  alreadyProcessed img = false -> exclude img = false ->
  ensureLoaded img = true -> naturalHeight img <> 0%N ->
  step env w (Intersect ((i, true) :: nil))
  = unobserve i (addCall (AwaitProbe i (naturalWidth img) (naturalHeight img) (bakeSource img)) w).
Proof.
  intros Hi Himg Hobs Hp Hex Hl Hh.
  cbn [step]. unfold reported. cbn [List.filter fst].
  rewrite bool_decide_eq_true_2 by done.
  unfold ioCallback. cbn [fold_left]. unfold ioEntry.
  unfold matchesAt at 1. rewrite Hi, Himg.
  cbn [andb]. unfold processStart. rewrite Hi, Hp, Hex. cbn [orb]. rewrite Hl.
  unfold bakeLoaded. rewrite Hi.
  unfold ensureLoaded in Hl. apply andb_true_iff in Hl as [_ Hw]. apply N.ltb_lt in Hw.
  replace (naturalWidth img =? 0)%N with false by (symmetry; apply N.eqb_neq; lia).
  replace (naturalHeight img =? 0)%N with false by (symmetry; by apply N.eqb_neq).
  reflexivity.
Qed.



Lemma setOverlay_attach_doc (w : World) (i h : nat) (img host : Element) :
  doc w !! i = Some img -> resolveHost (doc w) i img = Some h ->
  doc w !! h = Some host -> overlaysUnder (doc w) h = ∅ ->
  let o := fresh (dom (<[h := positioned host]> (doc w))) in
  doc w !! o = None /\ o <> h
  /\ doc (setOverlay w i)
     = <[o := overlayElement h host
               (tileGrid (Qmax 1 (orElseQ (rectWidth img) (ofN (width img))))
                         (Qmax 1 (orElseQ (rectHeight img) (ofN (height img)))))]>
         (<[h := positioned host]> (doc w)).
Proof.
  intros Himg Hres Hhost Hnone. cbv zeta.
  set (d1 := <[h := positioned host]> (doc w)).
  assert (Hfresh : fresh (dom d1) ∉ dom d1) by apply is_fresh.
  assert (Hne : fresh (dom d1) <> h).
  { intros Heq. apply Hfresh. rewrite Heq. subst d1. rewrite dom_insert_L.
    apply elem_of_union_l, elem_of_singleton. reflexivity. }
  split; [|split; [exact Hne|]].
  - apply not_elem_of_dom in Hfresh. subst d1. by rewrite lookup_insert_ne in Hfresh.
  - rewrite setOverlay_doc. unfold setOverlayDoc.
    rewrite Himg, Hres, Hhost, bool_decide_eq_true_2 by done. reflexivity.
Qed.

(** X18: the fallback end to end. For the same image, when the
    anonymous copy fails to load (the server sends no CORS headers) and
    the resolved host holds no overlay yet: the host receives exactly
    one overlay, the image keeps its source and its recorded handle,
    no object URL is issued, and the image is marked processed and no
    longer observed. *)
Theorem cors_failure_overlays (env : Env) (w : World) (i h : nat) (img host : Element)
    (Hi : doc w !! i = Some img) (Himg : isImage img = true) (Hobs : i ∈ ioTargets w)
    (Hp : alreadyProcessed img = false) (Hex : exclude img = false)
    (Hl : ensureLoaded img = true) (Hh : naturalHeight img <> 0%N)
    (Hfresh : callsFresh w)
    (Hres : resolveHost (doc w) i img = Some h) (Hhost : doc w !! h = Some host)
    (Hnone : overlaysUnder (doc w) h = ∅) :
  let w' := run env w (Intersect ((i, true) :: nil) :: ProbeFail (nextCall w) :: nil) in
  overlayOutcome w w' i img
  /\ field (fun e => wmProcessed (dataset e)) w' i = Some (Some "1")
  /\ ioTargets w' = ioTargets w ∖ {[i]} /\ inflight w' = inflight w
  /\ exists o ov,
       doc w !! o = None /\ doc w' !! o = Some ov
       /\ parentElement ov = Some h /\ isOverlay ov = true
       /\ forall k e, doc w' !! k = Some e -> isOverlay e = true ->
                      inb h (ancestors e) = true -> k = o.
Proof.
  cbv zeta. unfold run. cbn [fold_left].
  rewrite (intersect_starts_bake env w i img) by done.
  set (c1 := AwaitProbe i (naturalWidth img) (naturalHeight img) (bakeSource img)).
  assert (Hs2 : step env (unobserve i (addCall c1 w)) (ProbeFail (nextCall w))
                = fallback (setInflight (inflight w) (S (nextCall w))
                              (unobserve i (addCall c1 w))) i).
  { cbn [step]. unfold takeCall.
    change (inflight (unobserve i (addCall c1 w)))
      with (inflight w ++ (nextCall w, c1) :: nil)%list.
    rewrite extractCall_last by (apply callsFresh_other; [done|lia]).
    reflexivity. }
  rewrite Hs2.
  set (W := setInflight (inflight w) (S (nextCall w)) (unobserve i (addCall c1 w))).
  assert (HW : doc W = doc w /\ log W = log w /\ ioTargets W = ioTargets w ∖ {[i]}
               /\ inflight W = inflight w /\ nextBlob W = nextBlob w
               /\ revoked W = revoked w) by done.
  destruct HW as (HWd & HWl & HWio & HWin & HWb & HWr).
  assert (HWi : doc W !! i = Some img) by (by rewrite HWd).
  pose proof (fallback_spec W i img HWi) as Hfb. cbv zeta in Hfb.
  destruct Hfb as (Hlog & (img' & Hd & (p & ->)) & _ & Hinf & _ & Hio & Hrev & Hnb & _).
  assert (Hdoc : doc (fallback W i)
                 = alter markProcessedEl i (doc (setOverlay (emit (OverlayCall i) W) i)))
    by reflexivity.
  assert (HE : doc (emit (OverlayCall i) W) = doc w) by exact HWd.
  destruct (setOverlay_attach_doc (emit (OverlayCall i) W) i h img host)
    as (Ho & Hne & Hov); [exact HWi|by rewrite HE|by rewrite HE|by rewrite HE|].
  rewrite HE in Ho, Hov. rewrite Hov in Hdoc.
  set (o := fresh (dom (<[h := positioned host]> (doc w)))) in *.
  assert (Hoi : o <> i) by (intros ->; congruence).
  clearbody W o.
  split; [|split; [|split; [|split]]].
  - unfold overlayOutcome, field. rewrite Hd, Hlog, HWl, Hrev, HWr, Hnb, HWb. by repeat split.
  - unfold field. by rewrite Hd.
  - by rewrite Hio.
  - by rewrite Hinf.
  - eexists o, _. split; [exact Ho|]. split.
    { rewrite Hdoc, lookup_alter_ne, lookup_insert_eq by done. reflexivity. }
    split; [reflexivity|]. split; [reflexivity|].
    intros k e Hk Hove Hanc.
    destruct (decide (k = o)) as [->|Hko]; [done|]. exfalso.
    assert (Hsrc : exists e0, <[h := positioned host]> (doc w) !! k = Some e0
                              /\ isOverlay e0 = true /\ inb h (ancestors e0) = true).
    { rewrite Hdoc in Hk. destruct (decide (k = i)) as [->|Hki].
      - rewrite lookup_alter_eq, lookup_insert_ne in Hk by done.
        destruct (<[h := positioned host]> (doc w) !! i) as [e0|]; [|done].
        injection Hk as <-. by exists e0.
      - rewrite lookup_alter_ne, lookup_insert_ne in Hk by done. by exists e. }
    destruct Hsrc as (e0 & He0 & Hov0 & Hanc0).
    destruct (decide (k = h)) as [->|Hkh].
    + rewrite lookup_insert_eq in He0. injection He0 as <-.
      destruct (positioned_fields host) as (Ha & Hds & _).
      eapply (map_filter_empty_not_lookup _ _ h host Hnone); [|done].
      simpl. unfold isOverlay in *. rewrite <- Hds, <- Ha. by rewrite Hov0, Hanc0.
    + rewrite lookup_insert_ne in He0 by done.
      eapply (map_filter_empty_not_lookup _ _ k e0 Hnone); [|done].
      simpl. by rewrite Hov0, Hanc0.
Qed.

Lemma cors_failure_overlays_witness :
  let w' := run sampleEnv heroWorld (Intersect ((2, true) :: nil) :: ProbeFail 0 :: nil) in
  field src w' 2 = Some (src heroImg)
  /\ field (fun e => wmProcessed (dataset e)) w' 2 = Some (Some "1")
  /\ exists o ov, doc w' !! o = Some ov /\ parentElement ov = Some 1 /\ isOverlay ov = true.
Proof.
  destruct (cors_failure_overlays sampleEnv heroWorld 2 1 heroImg
              (sampleDiv (0 :: nil) ("property-hero" :: nil)))
    as ((_ & Hsrc & _) & Hmark & _ & _ & (o & ov & _ & Hov & Hpar & Hm & _));
    [reflexivity|reflexivity|by vm_compute|reflexivity|reflexivity|reflexivity
    |discriminate|intros t c []|reflexivity|reflexivity|by vm_compute|].
  cbv zeta. split; [exact Hsrc|]. split; [exact Hmark|]. by exists o, ov.
Defined.

Lemma filter_awaits_none (i : nat) (l : list (nat * Call)) :
  (forall t, ~ In (t, AwaitLoaded i) l) ->
  List.filter (awaitsLoad i) l = nil
  /\ List.filter (fun t => negb (awaitsLoad i t)) l = l.
Proof.
  induction l as [|[t c] l IH]; intros Hno; [done|].
  destruct IH as [IH1 IH2]; [intros t' Hin; apply (Hno t'); by right|].
  assert (Hc : awaitsLoad i (t, c) = false).
  { unfold awaitsLoad. simpl. destruct c as [j| |]; [|done|done].
    destruct (Nat.eqb_spec i j) as [->|]; [|done].
    exfalso. apply (Hno t). by left. }
  simpl. rewrite Hc. simpl. by rewrite IH1, IH2.
Qed.

Lemma load_resumes (env : Env) (w : World) (i : nat) (img : Element) (nw nh : N) :
  doc w !! i = Some img -> isImage img = true -> i ∈ ioTargets w ->
  alreadyProcessed img = false -> exclude img = false -> ensureLoaded img = false ->
  (forall t, ~ In (t, AwaitLoaded i) (inflight w)) ->
  nw <> 0%N -> nh <> 0%N ->
  let w' := run env w (Intersect ((i, true) :: nil) :: ImgLoad i nw nh :: nil) in
  inflight w' = (inflight w ++ (S (nextCall w), AwaitProbe i nw nh (src img)) :: nil)%list
  /\ doc w' !! i = Some (requestDone nw nh img)
  /\ log w' = log w /\ ioTargets w' = ioTargets w ∖ {[i]}
  /\ nextCall w' = S (S (nextCall w)) /\ nextBlob w' = nextBlob w
  /\ revoked w' = revoked w.
Proof.
  intros Hi Himg Hobs Hp Hex Hl Hnone Hnw Hnh.
  assert (Hs1 : step env w (Intersect ((i, true) :: nil))
                = unobserve i (addCall (AwaitLoaded i) w)).
  { cbn [step]. unfold reported. cbn [List.filter fst].
    rewrite bool_decide_eq_true_2 by done.
    unfold ioCallback. cbn [fold_left]. unfold ioEntry.
    unfold matchesAt. rewrite Hi, Himg.
    cbn [andb]. unfold processStart. by rewrite Hi, Hp, Hex, Hl. }
  destruct (filter_awaits_none i (inflight w) Hnone) as [Hf1 Hf2].
  cbv zeta. unfold run. cbn [fold_left]. rewrite Hs1.
  cbn [step]. unfold fireLoad.
  cbn [inflight nextCall updateEl setDoc unobserve setIo addCall setInflight].
  rewrite !List.filter_app, Hf1, Hf2.
  cbn [List.filter awaitsLoad snd]. rewrite Nat.eqb_refl. cbn [negb app fold_left].
  rewrite app_nil_r. unfold bakeLoaded.
  cbn [doc updateEl setDoc unobserve setIo addCall setInflight].
  rewrite lookup_alter_eq, Hi. cbn [fmap option_fmap option_map].
  cbn [requestDone withRequest naturalWidth naturalHeight currentSrc src].
  replace (nw =? 0)%N with false by (symmetry; by apply N.eqb_neq).
  replace (nh =? 0)%N with false by (symmetry; by apply N.eqb_neq).
  cbn [orb].
  replace (if String.eqb (src img) EmptyString then src img else src img) with (src img)
    by (by destruct (String.eqb (src img) EmptyString)).
  cbn. rewrite lookup_alter_eq, Hi. done.
Qed.


(** X19: an image that is still loading when it enters the viewport is
    baked once it fires [load], with the natural size and the source it
    has then. The size filter is not consulted again: the call goes on
    to request the anonymous copy whatever the loaded size is, also
    below the threshold of 120. *)
Theorem load_resumes_without_recheck (env : Env) (w : World) (i : nat) (img : Element)
    (nw nh : N)
    (Hi : doc w !! i = Some img) (Himg : isImage img = true) (Hobs : i ∈ ioTargets w)
    (Hp : alreadyProcessed img = false) (Hex : exclude img = false)
    (Hl : ensureLoaded img = false)
    (Hnone : forall t, ~ In (t, AwaitLoaded i) (inflight w))
    (Hnw : nw <> 0%N) (Hnh : nh <> 0%N) :
  let w' := run env w (Intersect ((i, true) :: nil) :: ImgLoad i nw nh :: nil) in
  inflight w' = (inflight w ++ (S (nextCall w), AwaitProbe i nw nh (src img)) :: nil)%list
  /\ doc w' !! i = Some (requestDone nw nh img)
  /\ log w' = log w /\ ioTargets w' = ioTargets w ∖ {[i]}.
Proof.
  destruct (load_resumes env w i img nw nh) as (H1 & H2 & H3 & H4 & _); try done.
Qed.

Lemma load_resumes_without_recheck_witness :
  exclude (requestDone 50 50 pendingImg) = true
  /\ inflight (run sampleEnv pendingWorld (Intersect ((2, true) :: nil) :: ImgLoad 2 50 50 :: nil))
     = (1%nat, AwaitProbe 2 50 50 "https://cdn.example/a.jpg") :: nil.
Proof.
  split; [reflexivity|].
  destruct (load_resumes_without_recheck sampleEnv pendingWorld 2 pendingImg 50 50)
    as (H & _);
    [reflexivity|reflexivity|by vm_compute|reflexivity|reflexivity|reflexivity
    |intros t []|discriminate|discriminate|].
  exact H.
Defined.

(** X20: a suspended bake is not tied to the source it started from.
    When the page assigns a new [src] while the export of a bake is
    pending, the export still installs its object URL: the image ends
    up displaying the watermarked copy of the old resource, marked as
    processed, and the assigned source is gone. *)
Theorem suspended_bake_overwrites_new_source (env : Env) (w : World) (i t : nat)
    (img : Element) (rest : list (nat * Call)) (s : string)
    (Hi : doc w !! i = Some img)
    (Hcall : extractCall t (inflight w) = Some (AwaitExport i, rest)) :
  let w' := run env w (HostSetSrc i s :: Exported t BlobReady :: nil) in
  field src (step env w (HostSetSrc i s)) i = Some s
  /\ field src w' i = Some (blobUrl (nextBlob w))
  /\ field (fun e => wmProcessed (dataset e)) w' i = Some (Some "1")
  /\ inflight w' = rest
  /\ log w'
     = (Marked i :: List.map Revoked (releasedBy img)
          ++ Installed i (blobUrl (nextBlob w)) :: log w)%list.
Proof.
  set (f := fun e => withRequest s (currentSrc e) false (naturalWidth e) (naturalHeight e) e).
  assert (Hw1 : doc (assignSrc w i s) !! i = Some (f img)
                /\ inflight (assignSrc w i s) = inflight w
                /\ log (assignSrc w i s) = log w
                /\ nextBlob (assignSrc w i s) = nextBlob w).
  { unfold assignSrc. fold f.
    destruct (queueRecord_fields i (AttrSrc i) (updateEl i f w))
      as (-> & -> & -> & _ & _ & _ & -> & _).
    simpl. by rewrite lookup_alter_eq, Hi. }
  destruct Hw1 as (Hd1 & Hin1 & Hl1 & Hb1).
  cbv zeta. unfold run. cbn [fold_left]. cbn [step].
  remember (assignSrc w i s) as w1 eqn:Ew1. clear Ew1.
  split; [unfold field; by rewrite Hd1|].
  unfold takeCall. rewrite Hin1, Hcall. unfold bakeExported.
  rewrite settle_success by reflexivity.
  set (W := setBlobs (S (nextBlob (setInflight rest (nextCall w1) w1)))
              (revoked (setInflight rest (nextCall w1) w1))
              (setInflight rest (nextCall w1) w1)).
  assert (HWi : doc W !! i = Some (f img)) by exact Hd1.
  assert (HW : log W = log w /\ inflight W = rest) by (split; [exact Hl1|reflexivity]).
  destruct HW as (HWl & HWin).
  change (nextBlob (setInflight rest (nextCall w1) w1)) with (nextBlob w1). rewrite Hb1.
  destruct (installBaked_spec W i (f img) (blobUrl (nextBlob w)) HWi)
    as (Hd & Hlog & _ & Hinf & _).
  clearbody W. unfold field. rewrite Hd, lookup_alter_eq, HWi, Hlog, HWl, Hinf, HWin.
  by repeat split.
Qed.

Lemma suspended_bake_overwrites_new_source_witness :
  let w' := run sampleEnv exportingWorld
              (HostSetSrc 2 "https://cdn.example/b.jpg" :: Exported 1 BlobReady :: nil) in
  field src w' 2 = Some (blobUrl 0) /\ inflight w' = nil.
Proof.
  destruct (suspended_bake_overwrites_new_source sampleEnv exportingWorld 2 1 heroImg nil
              "https://cdn.example/b.jpg") as (_ & Hsrc & _ & Hin & _);
    [reflexivity|reflexivity|].
  cbv zeta. by split.
Defined.

(** ** The size filter over the life of an image *)

(** The anonymous copy loads and [toBlob] delivers a blob: the call
    suspended last in the table installs a fresh object URL. *)
Lemma probe_export_installs (env : Env) (W : World) (i t : nat) (img : Element)
    (nw nh : N) (url : string) (l : list (nat * Call)) :
  doc W !! i = Some img ->
  inflight W = (l ++ (t, AwaitProbe i nw nh url) :: nil)%list ->
  (forall t' c', In (t', c') l -> t' <> t /\ t' <> nextCall W) ->
  context2d env = true -> tainted env url = false ->
  let w' := run env W (ProbeLoad t :: Exported (nextCall W) BlobReady :: nil) in
  doc w' !! i
  = Some (markProcessedEl (withWmUrl (Some (blobUrl (nextBlob W)))
            (withRequest (blobUrl (nextBlob W)) (currentSrc img) false
               (naturalWidth img) (naturalHeight img) img)))
  /\ inflight w' = l
  /\ exists L, log w' = (Marked i :: List.map Revoked (releasedBy img)
                           ++ Installed i (blobUrl (nextBlob W)) :: Drawn i url L :: log W)%list.
Proof.
  intros Hi Hin Hids Hctx Hclean. cbv zeta. unfold run. cbn [fold_left].
  set (D := Drawn i url (layout (metrics env) nw nh (displayedSize img nw nh).1
                           (displayedSize img nw nh).2)).
  assert (Hs2 : step env W (ProbeLoad t)
                = addCall (AwaitExport i) (emit D (setInflight l (nextCall W) W))).
  { cbn [step]. unfold takeCall. rewrite Hin.
    rewrite extractCall_last by (intros t' c' H'; by apply (Hids t' c')).
    unfold bakeProbed. cbn [doc setInflight]. rewrite Hi, Hctx. cbn [negb].
    destruct (displayedSize img nw nh) as [dw dh] eqn:Hsize.
    rewrite Hclean. reflexivity. }
  rewrite Hs2.
  set (w2 := emit D (setInflight l (nextCall W) W)).
  assert (Hs3 : step env (addCall (AwaitExport i) w2) (Exported (nextCall W) BlobReady)
                = installBaked
                    (setBlobs (S (nextBlob W)) (revoked W)
                       (setInflight l (S (nextCall W)) w2))
                    i (blobUrl (nextBlob W))).
  { cbn [step]. unfold takeCall.
    change (inflight (addCall (AwaitExport i) w2))
      with (l ++ (nextCall W, AwaitExport i) :: nil)%list.
    rewrite extractCall_last by (intros t' c' H'; by apply (Hids t' c')).
    unfold bakeExported. rewrite settle_success by reflexivity. reflexivity. }
  rewrite Hs3.
  set (W3 := setBlobs (S (nextBlob W)) (revoked W) (setInflight l (S (nextCall W)) w2)).
  assert (HW : doc W3 = doc W /\ log W3 = D :: log W /\ inflight W3 = l) by done.
  destruct HW as (HWd & HWl & HWin).
  assert (HWi : doc W3 !! i = Some img) by (by rewrite HWd).
  destruct (installBaked_spec W3 i img (blobUrl (nextBlob W)) HWi)
    as (Hd & Hlog & _ & Hinf & _).
  clearbody W3. rewrite Hd, lookup_alter_eq, HWi, Hlog, HWl, Hinf, HWin.
  repeat split. by eexists.
Qed.

(** C7, amended: an element without opt-out flag or class whose natural
    width and height are known (non-zero) when the filter is evaluated
    is excluded if and only if its natural width or natural height is
    below 120: with a natural size of 100 x 100 at that time it is not
    observed and [process] returns at once, with 120 x 120 it is
    eligible. The filter is evaluated when an element is observed and
    when [process] starts, and not again after the load: an element that
    passed the filter while it was loading is baked, installed and
    marked with whatever natural size it loads at, the size of an
    excluded element included. *)
Theorem C7_size_threshold (img : Element)
    (Hopt : optedOut img = false)
    (Hw : naturalWidth img <> 0%N) (Hh : naturalHeight img <> 0%N) :
  (exclude img = true <-> (naturalWidth img < 120)%N \/ (naturalHeight img < 120)%N)
  /\ (forall (w : World) (i : nat),
        doc w !! i = Some img ->
        naturalWidth img = 100%N -> naturalHeight img = 100%N ->
        processStart w i = w /\ observeIfEligible w i = w)
  /\ (naturalWidth img = 120%N -> naturalHeight img = 120%N -> exclude img = false)
  /\ (forall (env : Env) (w : World) (i : nat) (img0 : Element),
        doc w !! i = Some img0 -> isImage img0 = true -> i ∈ ioTargets w ->
        alreadyProcessed img0 = false -> exclude img0 = false ->
        ensureLoaded img0 = false ->
        (forall t, ~ In (t, AwaitLoaded i) (inflight w)) -> callsFresh w ->
        context2d env = true -> tainted env (src img0) = false ->
        let w' := run env w (Intersect ((i, true) :: nil)
                             :: ImgLoad i (naturalWidth img) (naturalHeight img)
                             :: ProbeLoad (S (nextCall w))
                             :: Exported (S (S (nextCall w))) BlobReady :: nil) in
        field naturalWidth w' i = Some (naturalWidth img)
        /\ field naturalHeight w' i = Some (naturalHeight img)
        /\ field src w' i = Some (blobUrl (nextBlob w))
        /\ field (fun e => wmProcessed (dataset e)) w' i = Some (Some "1")
        /\ exists L, In (Drawn i (src img0) L) (log w')).
Proof.
  assert (Hex : exclude img = (naturalWidth img <? 120)%N || (naturalHeight img <? 120)%N).
  { rewrite exclude_unfold, Hopt. unfold orElse.
    destruct (N.eqb_spec (naturalWidth img) 0); [contradiction|].
    destruct (N.eqb_spec (naturalHeight img) 0); [contradiction|]. reflexivity. }
  split; [|split; [|split]].
  - rewrite Hex, orb_true_iff, !N.ltb_lt. reflexivity.
  - intros w i Hi Hnw Hnh.
    assert (He : exclude img = true) by (rewrite Hex, Hnw; reflexivity).
    unfold processStart, observeIfEligible, eligibleAt, matchesAt.
    rewrite Hi, He, orb_true_r, andb_false_r. split; reflexivity.
  - intros Hnw Hnh. rewrite Hex, Hnw, Hnh. reflexivity.
  - intros env w i img0 Hi Himg Hobs Hp Hex0 Hl Hnone Hfresh Hctx Hclean. cbv zeta.
    change (run env w (Intersect ((i, true) :: nil)
                       :: ImgLoad i (naturalWidth img) (naturalHeight img)
                       :: ProbeLoad (S (nextCall w))
                       :: Exported (S (S (nextCall w))) BlobReady :: nil))
      with (run env (run env w (Intersect ((i, true) :: nil)
                                :: ImgLoad i (naturalWidth img) (naturalHeight img) :: nil))
              (ProbeLoad (S (nextCall w)) :: Exported (S (S (nextCall w))) BlobReady :: nil)).
    destruct (load_resumes env w i img0 (naturalWidth img) (naturalHeight img))
      as (Hin & Hd & Hlog & _ & Hnc & Hnb & _); try done.
    cbv zeta in Hin, Hd, Hlog, Hnc, Hnb.
    remember (run env w (Intersect ((i, true) :: nil)
                         :: ImgLoad i (naturalWidth img) (naturalHeight img) :: nil))
      as W eqn:EW. clear EW.
    rewrite <- Hnc, <- Hnb.
    destruct (probe_export_installs env W i (S (nextCall w)) (requestDone (naturalWidth img)
                (naturalHeight img) img0) (naturalWidth img) (naturalHeight img) (src img0)
                (inflight w)) as (Hdoc & _ & L & HL); try done.
    { intros t' c' Hin'. specialize (Hfresh t' c' Hin'). rewrite Hnc. lia. }
    cbv zeta in Hdoc, HL. unfold field. rewrite Hdoc, HL.
    repeat split. exists L. right. apply in_or_app. right. right. by left.
Qed.

Lemma C7_size_threshold_witness :
  ((exclude iconImg = true <->
    (naturalWidth iconImg < 120)%N \/ (naturalHeight iconImg < 120)%N)
   /\ (forall (w : World) (i : nat),
         doc w !! i = Some iconImg -> processStart w i = w /\ observeIfEligible w i = w))
  /\ exclude thresholdImg = false
  /\ (let w' := run sampleEnv pendingWorld
                  (Intersect ((2, true) :: nil) :: ImgLoad 2 100 100
                   :: ProbeLoad 1 :: Exported 2 BlobReady :: nil) in
      field naturalWidth w' 2 = Some 100%N
      /\ field src w' 2 = Some (blobUrl 0)
      /\ field (fun e => wmProcessed (dataset e)) w' 2 = Some (Some "1")).
Proof.
  split; [|split].
  - destruct (C7_size_threshold iconImg) as (Hiff & Hnever & _);
      [reflexivity|discriminate|discriminate|].
    split; [exact Hiff|]. intros w i Hi. by apply Hnever.
  - destruct (C7_size_threshold thresholdImg) as (_ & _ & Hok & _);
      [reflexivity|discriminate|discriminate|].
    by apply Hok.
  - destruct (C7_size_threshold iconImg) as (_ & _ & _ & Hlate);
      [reflexivity|discriminate|discriminate|].
    destruct (Hlate sampleEnv pendingWorld 2 pendingImg) as (H1 & _ & H3 & H4 & _);
      [reflexivity|reflexivity|by vm_compute|reflexivity|reflexivity|reflexivity
      |intros t []|intros t c []|reflexivity|reflexivity|].
    cbv zeta. by repeat split.
Defined.

(** ** Rejections of the baking pipeline *)







(** ** The layout on JavaScript numbers *)

Lemma F64_mul_comm (x y : F64.number) : F64.mul x y = F64.mul y x.
Proof.
  unfold F64.mul, SpecFloat.SFmul.
  destruct x as [sx|sx| |sx mx ex], y as [sy|sy| |sy my ey]; try reflexivity;
    rewrite ?(xorb_comm sx sy); try reflexivity.
  by rewrite (Pos.mul_comm mx my), (Z.add_comm ex ey).
Qed.

Lemma F64_baseFontPx_spec (dispW dispH : F64.number) :
  F64.baseFontPx dispW dispH = F64.specFontSize dispW dispH.
Proof. unfold F64.baseFontPx, F64.specFontSize. by rewrite F64_mul_comm. Qed.

Lemma F64_measure_upper (m : F64.Metrics) (f : F64.number) (text : string) (ls : F64.number) :
  F64.measureTextWithSpacing m f (toUpperCase text) ls = F64.measureTextWithSpacing m f text ls.
Proof. unfold F64.measureTextWithSpacing. by rewrite toUpperCase_idem. Qed.


(** The rounding of [w * 0.7] decides the branch of line 120. For a
    raster 1345 wide displayed at 462 x 462 the text measures 941.5 at
    the base size of 74; [1345 * 0.7] is the number just below 941.5, so
    the shrink pass runs and the size becomes 73. *)
Lemma shrink_test_rounds :
  let L := F64.layout F64.sampleMetrics 1345 1345 (F64.ofInt 462) (F64.ofInt 462) in
  F64.baseFontPx (F64.ofInt 462) (F64.ofInt 462) = F64.ofInt 74
  /\ F64.measureTextWithSpacing F64.sampleMetrics (F64.ofInt 74) TEXT (F64.ofInt 4)
     = F64.literal 9415 10
  /\ F64.gt (F64.literal 9415 10) (F64.mul (F64.ofN 1345) (F64.literal 7 10)) = true
  /\ F64.fontPx L = F64.ofInt 73
  /\ F64.fontPx (F64.layout F64.sampleMetrics 444 444 (F64.ofInt 188) (F64.ofInt 188))
     = F64.ofInt 23.
Proof. vm_compute. by repeat split. Qed.

(** C8: when the shrink test of the engine fails, that is when the
    width measured at the base size is not greater than the raster
    width times 0.7 as the engine computes it, the layout computed by
    [bakeWatermark] is the one of the specification: font size
    [max(24, round(0.16 * shorter displayed side))], letter spacing
    [round(0.06 * font size)], margin
    [max(12, round(0.035 * min(w, h)))], anchor
    [x = max(0, w - textWidth - margin)] and baseline
    [y = max(fontSize + margin, h - margin)], all on binary64 numbers. *)
Theorem C8_layout_without_shrink (m : F64.Metrics) (w h : N) (dispW dispH : F64.number)
    (Hfit : F64.gt (F64.measureTextWithSpacing m (F64.specFontSize dispW dispH) TEXT
                      (F64.specLetterSpacing (F64.specFontSize dispW dispH)))
                   (F64.specMaxWidth w) = false) :
  let L := F64.layout m w h dispW dispH in
  F64.fontPx L = F64.specFontSize dispW dispH
  /\ F64.letterSpacing L = F64.specLetterSpacing (F64.fontPx L)
  /\ F64.textW L = F64.measureTextWithSpacing m (F64.fontPx L) TEXT (F64.letterSpacing L)
  /\ F64.margin L = F64.specMargin w h
  /\ F64.xStart L = F64.specAnchorX w (F64.textW L) (F64.margin L)
  /\ F64.yBase L = F64.specBaselineY h (F64.fontPx L) (F64.margin L).
Proof.
  unfold F64.layout, F64.layoutText.
  rewrite F64_measure_upper, F64_baseFontPx_spec.
  unfold F64.specLetterSpacing, F64.specMaxWidth in Hfit.
  rewrite (F64_mul_comm (F64.literal 6 100)), (F64_mul_comm (F64.literal 7 10)) in Hfit.
  rewrite Hfit. cbn [F64.fontPx F64.letterSpacing F64.textW F64.margin F64.xStart F64.yBase].
  unfold F64.specLetterSpacing, F64.specMargin.
  rewrite !(F64_mul_comm (F64.literal 6 100)), (F64_mul_comm (F64.literal 35 1000)).
  by repeat split.
Qed.

Lemma C8_layout_without_shrink_witness :
  let L := F64.layout F64.sampleMetrics 1000 800 (F64.ofInt 150) (F64.ofInt 150) in
  F64.fontPx L = F64.specFontSize (F64.ofInt 150) (F64.ofInt 150)
  /\ F64.letterSpacing L = F64.specLetterSpacing (F64.fontPx L)
  /\ F64.textW L = F64.measureTextWithSpacing F64.sampleMetrics (F64.fontPx L) TEXT
                     (F64.letterSpacing L)
  /\ F64.margin L = F64.specMargin 1000 800
  /\ F64.xStart L = F64.specAnchorX 1000 (F64.textW L) (F64.margin L)
  /\ F64.yBase L = F64.specBaselineY 800 (F64.fontPx L) (F64.margin L).
Proof.
  apply (C8_layout_without_shrink F64.sampleMetrics 1000 800 (F64.ofInt 150) (F64.ofInt 150)).
  by vm_compute.
Defined.



